(** * Raptor++ : term model, web parser, visitor aggregate and ontology walker

    A shallow embedding of [rdf_parser.hpp], the visitors header (the
    [aggregate] class) and [ontology_walker.hpp], together with the
    properties of the crawl that the specification states.

    Conventions of the embedding
    - [std::string] is [string]; [unsigned_string]
      ([std::basic_string<unsigned char>]) is [list byte].
    - A C++ function that may throw returns a [result]; the exceptions that
      occur in the sources are [std::domain_error] (with its message) and
      [boost::bad_get]; a user supplied visitor may throw anything, which
      is [visitor_exception].
    - [std::unordered_set<std::string>] is [gset string];
      [std::queue<std::string>] is a list whose head is the front.
    - The predicate [pred_] is a function of the triple alone, and a visitor
      reads the range it is given without assigning through the iterators;
      whatever else a visitor does is a change of the [World]. In [walk]
      the predicate always returns; [walk_throwing] is the same loop with
      a predicate that may throw, and agrees with [walk] when it does not.
    - A visitor that throws is taken to have written nothing itself: the
      state at an exception holds the [World] as it was when the visitor
      was called. What the components of an [aggregate] before the failing
      one wrote is kept.
    - The raptor2 library and the network are not part of the sources.
      Their observable behaviour during one parse is a [raptor_run]: whether
      [raptor_new_uri] yields an object, and the sequence of callbacks the
      library makes on the handlers installed by the parser. *)

From stdpp Require Import gmap strings list pretty.
From Stdlib Require Import Strings.Byte.

#[local] Set Warnings "-clear-no-such-hyp".

Local Open Scope string_scope.
Local Open Scope list_scope.

(** ** Exceptions and the result monad *)

Inductive exception : Type :=
| domain_error (what : string)
| bad_get
| visitor_exception (what : string).

Inductive result (A : Type) : Type :=
| Return (a : A)
| Throw (e : exception).
Arguments Return {A} a.
Arguments Throw {A} e.

#[global] Instance result_ret : MRet result := @Return.
#[global] Instance result_bind : MBind result := fun A B f m =>
  match m with
  | Return a => f a
  | Throw e => Throw e
  end.

Definition returns {A} (m : result A) : bool :=
  match m with Return _ => true | Throw _ => false end.

(** ** Strings *)

Definition unsigned_string : Type := list byte.

(** [std::transform] with a [back_inserter]: characters are appended to
    [temp] one at a time, each through [static_cast<char>]. *)
Fixpoint to_std_string_into (str : unsigned_string) (temp : string) : string :=
  match str with
  | [] => temp
  | c :: rest =>
      to_std_string_into rest (temp +:+ String (Ascii.ascii_of_byte c) EmptyString)
  end.

Definition to_std_string (str : unsigned_string) : string :=
  to_std_string_into str "".

(** ** The raptor2 data that the sources read

    [raptor2.h] fixes the enumerators of [raptor_term_type] and
    [raptor_log_level]; an enumeration value arriving from C is an integer,
    so a term's [type] is a [Z] and may be none of the enumerators. *)

Definition RAPTOR_TERM_TYPE_UNKNOWN : Z := 0.
Definition RAPTOR_TERM_TYPE_URI : Z := 1.
Definition RAPTOR_TERM_TYPE_LITERAL : Z := 2.
Definition RAPTOR_TERM_TYPE_BLANK : Z := 4.

(** A [raptor_uri*]: [None] is [NULL], [Some s] an object whose
    [raptor_uri_as_string] is [s]. *)
Definition raptor_uri_ptr : Type := option unsigned_string.

Record raptor_term_literal_value : Type := {
  lit_string : unsigned_string;
  lit_string_len : nat;
  datatype : raptor_uri_ptr
}.

Record raptor_term_blank_value : Type := {
  blank_string : unsigned_string;
  blank_string_len : nat
}.

(** The union [raptor_term_value]: every member can be read whatever the
    tag says, so the three members are kept side by side. *)
Record raptor_term_value : Type := {
  uri : raptor_uri_ptr;
  literal : raptor_term_literal_value;
  blank : raptor_term_blank_value
}.

Record raptor_term : Type := {
  type : Z;
  value : raptor_term_value
}.

(** ** The three kinds of term *)

Record rdf_uri : Type := { uri_ : unsigned_string }.

Record rdf_literal : Type := {
  literal_ : unsigned_string;
  literal_uri_ : rdf_uri
}.

Record rdf_blank : Type := { str_ : unsigned_string }.

(** [basic_string(ptr, len)] copies the first [len] characters. *)
Definition basic_string (p : unsigned_string) (len : nat) : unsigned_string :=
  take len p.

Definition new_rdf_uri (u : raptor_uri_ptr) : rdf_uri :=
  {| uri_ := match u with None => [] | Some s => s end |}.

Definition new_rdf_literal (lit : raptor_term_literal_value) : rdf_literal :=
  {| literal_ := basic_string (lit_string lit) (lit_string_len lit);
     literal_uri_ := new_rdf_uri (datatype lit) |}.

Definition new_rdf_blank (blnk : raptor_term_blank_value) : rdf_blank :=
  {| str_ := basic_string (blank_string blnk) (blank_string_len blnk) |}.

(** [boost::variant<rdf_uri, rdf_literal, rdf_blank>] *)
Inductive rdf_term : Type :=
| term_uri (u : rdf_uri)
| term_literal (l : rdf_literal)
| term_blank (b : rdf_blank).

(** The three predicate visitors: one overload for the type asked about,
    a template overload answering [false] for the others. *)
Definition is_uri (t : rdf_term) : bool :=
  match t with term_uri _ => true | _ => false end.

Definition is_literal (t : rdf_term) : bool :=
  match t with term_literal _ => true | _ => false end.

Definition is_blank (t : rdf_term) : bool :=
  match t with term_blank _ => true | _ => false end.

(** [boost::get<T>(variant&)] throws [bad_get] when [T] is not the active
    member. *)
Definition get_rdf_uri (t : rdf_term) : result rdf_uri :=
  match t with term_uri u => Return u | _ => Throw bad_get end.

Definition get_rdf_literal (t : rdf_term) : result rdf_literal :=
  match t with term_literal l => Return l | _ => Throw bad_get end.

Definition get_rdf_blank (t : rdf_term) : result rdf_blank :=
  match t with term_blank b => Return b | _ => Throw bad_get end.

(** The three specialisations of [term_cast]. *)
Definition term_cast_rdf_uri (t : rdf_term) : result rdf_uri :=
  if is_uri t then get_rdf_uri t else Throw (domain_error "bad cast").

Definition term_cast_rdf_literal (t : rdf_term) : result rdf_literal :=
  if is_literal t then get_rdf_literal t else Throw (domain_error "bad cast").

Definition term_cast_rdf_blank (t : rdf_term) : result rdf_blank :=
  if is_blank t then get_rdf_blank t else Throw (domain_error "bad cast").

Definition make_rdf_term (rterm : raptor_term) : result rdf_term :=
  if (type rterm =? RAPTOR_TERM_TYPE_URI)%Z then
    Return (term_uri (new_rdf_uri (uri (value rterm))))
  else if (type rterm =? RAPTOR_TERM_TYPE_LITERAL)%Z then
    Return (term_literal (new_rdf_literal (literal (value rterm))))
  else if (type rterm =? RAPTOR_TERM_TYPE_BLANK)%Z then
    Return (term_blank (new_rdf_blank (blank (value rterm))))
  else Throw (domain_error "bad rdf data").

Record rdf_triple : Type := {
  subject : rdf_term;
  predicate : rdf_term;
  object : rdf_term
}.

(** ** [rdf_web_parser]

    [raptor2.h] numbers the log levels from [RAPTOR_LOG_LEVEL_NONE = 0] up
    to [RAPTOR_LOG_LEVEL_FATAL = 6]. *)

Definition RAPTOR_LOG_LEVEL_WARN : Z := 4.
Definition RAPTOR_LOG_LEVEL_ERROR : Z := 5.
Definition RAPTOR_LOG_LEVEL_FATAL : Z := 6.

Record raptor_statement : Type := {
  st_subject : raptor_term;
  st_predicate : raptor_term;
  st_object : raptor_term
}.

Record raptor_log_message : Type := {
  level : Z;
  text : string
}.

(** What the library does while [raptor_parser_parse_uri_with_connection]
    runs: it calls the statement handler and the log handler, in some
    order, any number of times. *)
Inductive raptor_callback : Type :=
| on_statement (statement : raptor_statement)
| on_log_message (message : raptor_log_message).

Record raptor_run : Type := {
  new_uri_is_null : bool;
  callbacks : list raptor_callback
}.

(** The data the two handlers share with [operator()]: the local vector
    [triples] and the local flag [good_parse]. *)
Record parse_data : Type := {
  triples : list rdf_triple;
  good_parse : bool
}.

(** All three [make_rdf_term] calls throw the same exception, so the order
    in which the constructor arguments are evaluated does not show. *)
Definition handle_statement (data : parse_data) (statement : raptor_statement)
  : result parse_data :=
  s ← make_rdf_term (st_subject statement);
  p ← make_rdf_term (st_predicate statement);
  o ← make_rdf_term (st_object statement);
  mret {| triples := triples data ++ [{| subject := s; predicate := p; object := o |}];
          good_parse := good_parse data |}.

Definition handle_log_messages (data : parse_data) (message : raptor_log_message)
  : parse_data :=
  {| triples := triples data;
     good_parse := negb (level message =? RAPTOR_LOG_LEVEL_ERROR)%Z
                   && negb (level message =? RAPTOR_LOG_LEVEL_FATAL)%Z |}.

Fixpoint run_callbacks (cbs : list raptor_callback) (data : parse_data)
  : result parse_data :=
  match cbs with
  | [] => mret data
  | on_statement statement :: rest =>
      data' ← handle_statement data statement; run_callbacks rest data'
  | on_log_message message :: rest =>
      run_callbacks rest (handle_log_messages data message)
  end.

(** [rdf_web_parser::operator()(uri, dest)] with [dest] a [back_inserter]
    on an empty list: the value is the returned flag and what the list
    holds afterwards. *)
Definition rdf_web_parser_call (run : raptor_run) : result (bool * list rdf_triple) :=
  if new_uri_is_null run then Throw (domain_error "Failed to initialize raptor uri")
  else
    data ← run_callbacks (callbacks run) {| triples := []; good_parse := true |};
    mret (good_parse data, triples data).

(** ** [std::remove_if] on a sequence addressed by position *)

Section RemoveIf.
Context {A : Type}.
Variable p : A → bool.

(** Position of the first element satisfying [p], or the length. *)
Fixpoint find_if (l : list A) : nat :=
  match l with
  | [] => 0
  | x :: l' => if p x then 0 else S (find_if l')
  end.

(** [n] iterations of
    [for (; first != last; ++first) if (!p( *first)) *result++ = *first;] *)
Fixpoint remove_if_loop (n first result : nat) (a : list A) : list A * nat :=
  match n with
  | 0 => (a, result)
  | S n' =>
      match a !! first with
      | Some x =>
          if p x then remove_if_loop n' (S first) result a
          else remove_if_loop n' (S first) (S result) (<[result := x]> a)
      | None => (a, result)
      end
  end.

(** The sequence after the call and the position of the returned
    iterator. *)
Definition remove_if (a : list A) : list A * nat :=
  let first := find_if a in
  if decide (first = length a) then (a, first)
  else remove_if_loop (length a - S first) (S first) first a.
End RemoveIf.

(** ** [ontology_walker] *)

(** What a walk does, in the order in which it does it: [fringe.push],
    [fringe.front] with [fringe.pop], [closed_list.insert], the call of the
    parser with what it gave, and the call of [func_] with the range it is
    handed. The walker keeps this record in [trace]; nothing it does
    depends on it. *)
Inductive event : Type :=
| ev_push (u : string)
| ev_pop (u : string)
| ev_insert (u : string)
| ev_parse (u : string) (r : result (bool * list rdf_triple))
| ev_visit (u : string) (view : list rdf_triple).

Section Walker.
Context {World : Type}.

(** What raptor and the network answer for a uri, given everything that
    happened before. *)
Variable raptor : string → World → raptor_run * World.
(** [func_]: the visitor; it may throw. *)
Variable func_ : string → list rdf_triple → World → result World.
(** [pred_]. *)
Variable pred_ : rdf_triple → bool.

Record walker_state : Type := {
  closed_list : gset string;
  fringe : list string;
  world : World;
  trace : list event
}.

Inductive step_result : Type :=
| Continue (st : walker_state)
| Abort (e : exception) (st : walker_state).

Definition log (evs : list event) (st : walker_state) : walker_state :=
  {| closed_list := closed_list st; fringe := fringe st;
     world := world st; trace := trace st ++ evs |}.

Definition push (u : string) (st : walker_state) : walker_state :=
  {| closed_list := closed_list st; fringe := fringe st ++ [u];
     world := world st; trace := trace st ++ [ev_push u] |}.

(** The second [std::for_each]: the lambda run on each triple of the
    range, in order. *)
Fixpoint add_to_fringe (range : list rdf_triple) (st : walker_state) : step_result :=
  match range with
  | [] => Continue st
  | t :: rest =>
      let obj := object t in
      if is_uri obj then
        match term_cast_rdf_uri obj with
        | Return next_uri => add_to_fringe rest (push (to_std_string (uri_ next_uri)) st)
        | Throw e => Abort e st
        end
      else add_to_fringe rest st
  end.

(** One pass through the body of the [while], [current_uri] already
    taken off the fringe. *)
Definition loop_body (current_uri : string) (st : walker_state) : step_result :=
  if decide (current_uri ∈ closed_list st) then Continue st
  else
    let st1 := {| closed_list := {[current_uri]} ∪ closed_list st;
                  fringe := fringe st; world := world st;
                  trace := trace st ++ [ev_insert current_uri] |} in
    let '(run, w) := raptor current_uri (world st1) in
    let r := rdf_web_parser_call run in
    let st2 := {| closed_list := closed_list st1; fringe := fringe st1;
                  world := w; trace := trace st1 ++ [ev_parse current_uri r] |} in
    match r with
    | Throw e => Abort e st2
    | Return (good_rdf, triples) =>
        if good_rdf then
          let '(triples', new_end) := remove_if (λ t, negb (pred_ t)) triples in
          let view := take new_end triples' in
          let st3 := log [ev_visit current_uri view] st2 in
          match func_ current_uri view (world st3) with
          | Throw e => Abort e st3
          | Return w' =>
              add_to_fringe view
                {| closed_list := closed_list st3; fringe := fringe st3;
                   world := w'; trace := trace st3 |}
          end
        else Continue st2
    end.

Inductive outcome : Type :=
| Finished (st : walker_state)
| Raised (e : exception) (st : walker_state)
| Running (st : walker_state).

Definition final (o : outcome) : walker_state :=
  match o with Finished st | Raised _ st | Running st => st end.

(** The [while] loop, cut off after [fuel] passes. *)
Fixpoint walk_loop (fuel : nat) (st : walker_state) : outcome :=
  match fringe st with
  | [] => Finished st
  | current_uri :: rest =>
      match fuel with
      | 0 => Running st
      | S fuel' =>
          match loop_body current_uri
                  {| closed_list := closed_list st; fringe := rest;
                     world := world st;
                     trace := trace st ++ [ev_pop current_uri] |} with
          | Continue st' => walk_loop fuel' st'
          | Abort e st' => Raised e st'
          end
      end
  end.

Definition start (uri : string) (w : World) : walker_state :=
  {| closed_list := ∅; fringe := [uri]; world := w; trace := [ev_push uri] |}.

(** [ontology_walker::operator()(uri)] *)
Definition walk (fuel : nat) (uri : string) (w : World) : outcome :=
  walk_loop fuel (start uri w).
End Walker.

Arguments walker_state World : clear implicits.
Arguments step_result World : clear implicits.
Arguments outcome World : clear implicits.

(** ** [visitors::aggregate] *)

Section Aggregate.
Context {World : Type}.

(** A visitor is called with the uri and the range of triples. *)
Definition visitor : Type := string → list rdf_triple → World → result World.

(** The functor [call_me]: it keeps copies of the three arguments. *)
Record call_me : Type := {
  cm_str : string;
  cm_range : list rdf_triple
}.

(** One call made on a component: its position in [functions_] and the
    arguments it received. *)
Definition invocation : Type := nat * string * list rdf_triple.

Definition call_me_call (caller : call_me) (f : visitor) (w : World) : result World :=
  f (cm_str caller) (cm_range caller) w.

(** [boost::fusion::for_each]: the functor is applied to the elements
    from the first to the last; [i] is the position of the first element
    of [functions_] and [calls] records the applications made so far.
    The components write through references to objects of the caller, so
    what the earlier ones wrote stays written when a later one throws: the
    third part of the value is the world as the call leaves it. (A visitor
    that throws is taken to have written nothing itself.) *)
Fixpoint fusion_for_each (i : nat) (functions_ : list visitor) (caller : call_me)
    (w : World) (calls : list invocation)
  : result World * list invocation * World :=
  match functions_ with
  | [] => (Return w, calls, w)
  | f :: rest =>
      let calls' := calls ++ [(i, cm_str caller, cm_range caller)] in
      match call_me_call caller f w with
      | Return w' => fusion_for_each (S i) rest caller w' calls'
      | Throw e => (Throw e, calls', w)
      end
  end.

(** [aggregate::operator()(str, first, last)] with the record of the
    calls and the world it leaves. *)
Definition aggregate_call (functions_ : list visitor) (str : string)
    (range : list rdf_triple) (w : World)
  : result World * list invocation * World :=
  let caller := {| cm_str := str; cm_range := range |} in
  fusion_for_each 0 functions_ caller w [].

Definition aggregate (functions_ : list visitor) : visitor :=
  λ str range w, (aggregate_call functions_ str range w).1.1.
End Aggregate.

(** ** Reading a trace *)

Definition visits (tr : list event) : list (string * list rdf_triple) :=
  omap (λ e, match e with ev_visit u view => Some (u, view) | _ => None end) tr.

Definition visited (tr : list event) : list string := (visits tr).*1.

Definition parses (tr : list event) : list (string * result (bool * list rdf_triple)) :=
  omap (λ e, match e with ev_parse u r => Some (u, r) | _ => None end) tr.

Definition parsed (tr : list event) : list string := (parses tr).*1.

Definition pushed (tr : list event) : list string :=
  omap (λ e, match e with ev_push u => Some u | _ => None end) tr.

Definition popped (tr : list event) : list string :=
  omap (λ e, match e with ev_pop u => Some u | _ => None end) tr.

(** The elements of [l] that are not in [seen], each where it occurs for
    the first time. *)
Fixpoint first_time (seen : gset string) (l : list string) : list string :=
  match l with
  | [] => []
  | u :: l' =>
      if decide (u ∈ seen) then first_time seen l'
      else u :: first_time ({[u]} ∪ seen) l'
  end.

(** The uris that the objects of a range of triples name, in order. *)
Definition references (view : list rdf_triple) : list string :=
  omap (λ t, match object t with
             | term_uri u => Some (to_std_string (uri_ u))
             | _ => None
             end) view.

(** What a successful parse hands to the visitor. *)
Definition delivered (pred_ : rdf_triple → bool)
    (p : string * result (bool * list rdf_triple)) : option (string * list rdf_triple) :=
  match p with
  | (u, Return (true, ts)) => Some (u, List.filter pred_ ts)
  | _ => None
  end.

(** Which event may come directly after which. *)
Definition follows (pred_ : rdf_triple → bool) (a b : event) : Prop :=
  match a, b with
  | ev_push _, (ev_push _ | ev_pop _) => True
  | ev_pop u, ev_insert v => u = v
  | ev_pop _, ev_pop _ => True
  | ev_insert u, ev_parse v _ => u = v
  | ev_parse u (Return (true, ts)), ev_visit v view => u = v ∧ view = List.filter pred_ ts
  | ev_parse _ (Return (false, _)), ev_pop _ => True
  | ev_visit _ _, (ev_push _ | ev_pop _) => True
  | _, _ => False
  end.

Fixpoint chain (R : event → event → Prop) (tr : list event) : Prop :=
  match tr with
  | a :: tr' =>
      match tr' with
      | b :: _ => R a b ∧ chain R tr'
      | [] => True
      end
  | [] => True
  end.

Arguments chain R tr : simpl never.

(** The claim that a uri whose parse failed is not pushed again. *)
Definition never_pushed_after_failure (tr : list event) : Prop :=
  ∀ i j X ts, tr !! i = Some (ev_parse X (Return (false, ts))) →
              i < j → tr !! j ≠ Some (ev_push X).

(** The claim that a failed parse hands no triples to the caller. *)
Definition failure_delivers_nothing (run : raptor_run) : Prop :=
  ∀ ts, rdf_web_parser_call run = Return (false, ts) → ts = [].

Definition is_error (message : raptor_log_message) : bool :=
  bool_decide (level message = RAPTOR_LOG_LEVEL_ERROR
               ∨ level message = RAPTOR_LOG_LEVEL_FATAL).

Definition log_messages (cbs : list raptor_callback) : list raptor_log_message :=
  omap (λ c, match c with on_log_message m => Some m | _ => None end) cbs.

Definition statements (cbs : list raptor_callback) : list raptor_statement :=
  omap (λ c, match c with on_statement s => Some s | _ => None end) cbs.

Definition known_type (rterm : raptor_term) : Prop :=
  type rterm = RAPTOR_TERM_TYPE_URI ∨ type rterm = RAPTOR_TERM_TYPE_LITERAL
  ∨ type rterm = RAPTOR_TERM_TYPE_BLANK.

Definition well_typed (statement : raptor_statement) : Prop :=
  known_type (st_subject statement) ∧ known_type (st_predicate statement)
  ∧ known_type (st_object statement).

(** The triple built from a statement. *)
Definition converts (statement : raptor_statement) (t : rdf_triple) : Prop :=
  make_rdf_term (st_subject statement) = Return (subject t)
  ∧ make_rdf_term (st_predicate statement) = Return (predicate t)
  ∧ make_rdf_term (st_object statement) = Return (object t).

(** The flag after the callbacks, as far as the messages decide it: the
    last message settles it. *)
Definition flag_after (cbs : list raptor_callback) (before : bool) : bool :=
  match last (log_messages cbs) with
  | Some m => negb (is_error m)
  | None => before
  end.

(** ** The loop body, read off as list functions *)

Section WalkerReading.
Context {World : Type}.
Variable raptor : string → World → raptor_run * World.
Variable func_ : string → list rdf_triple → World → result World.
Variable pred_ : rdf_triple → bool.

(** Constructing the parser and calling it on [u] in world [w]. *)
Definition fetch (u : string) (w : World) : result (bool * list rdf_triple) * World :=
  let '(run, w') := raptor u w in (rdf_web_parser_call run, w').

(** What one pass of the loop body amounts to, with the filter written as
    [List.filter] and the pushes as [references]. *)
Definition summary (u : string) (st : walker_state World) : step_result World :=
  if decide (u ∈ closed_list st) then Continue st
  else
    let '(r, w) := fetch u (world st) in
    let seen := {[u]} ∪ closed_list st in
    let tr := trace st ++ [ev_insert u; ev_parse u r] in
    match r with
    | Throw e =>
        Abort e {| closed_list := seen; fringe := fringe st; world := w; trace := tr |}
    | Return (false, _) =>
        Continue {| closed_list := seen; fringe := fringe st; world := w; trace := tr |}
    | Return (true, ts) =>
        let view := List.filter pred_ ts in
        match func_ u view w with
        | Throw e =>
            Abort e {| closed_list := seen; fringe := fringe st; world := w;
                       trace := tr ++ [ev_visit u view] |}
        | Return w' =>
            Continue {| closed_list := seen;
                        fringe := fringe st ++ references view;
                        world := w';
                        trace := tr ++ ev_visit u view :: (ev_push <$> references view) |}
        end
    end.

(** The state in which the body runs once [u] has been taken off. *)
Definition taken (u : string) (rest : list string) (st : walker_state World) : walker_state World :=
  {| closed_list := closed_list st; fringe := rest; world := world st;
     trace := trace st ++ [ev_pop u] |}.

(** Whenever [u] is parsed it is read successfully, and the admitted
    triples refer to [vs], in that order. *)
Definition links_to (u : string) (vs : list string) : Prop :=
  ∀ w, ∃ ts w', fetch u w = (Return (true, ts), w')
                ∧ references (List.filter pred_ ts) = vs.

Definition visitor_returns : Prop :=
  ∀ u view w, ∃ w', func_ u view w = Return w'.

(** No document of [U] refers, through an admitted triple, to a uri
    outside [U]. *)
Definition stays_in (U : gset string) : Prop :=
  ∀ u w ts w', u ∈ U → fetch u w = (Return (true, ts), w') →
               ∀ v, v ∈ references (List.filter pred_ ts) → v ∈ U.

Definition terminated (o : outcome World) : Prop :=
  match o with Running _ => False | _ => True end.

(** From [st] the loop runs to its end, having visited [vs] by then. *)
Definition finishes (st : walker_state World) (vs : list string) : Prop :=
  ∃ fuel st', walk_loop raptor func_ pred_ fuel st = Finished st'
              ∧ visited (trace st') = vs.

(** Bookkeeping of parses and visits. *)
Definition accounted (st : walker_state World) : Prop :=
  NoDup (parsed (trace st))
  ∧ (∀ u, u ∈ parsed (trace st) → u ∈ closed_list st)
  ∧ visits (trace st) = omap (delivered pred_) (parses (trace st)).

(** The fringe is what has been pushed and not yet popped. *)
Definition queued (st : walker_state World) : Prop :=
  pushed (trace st) = popped (trace st) ++ fringe st
  ∧ visited (trace st) `sublist_of` popped (trace st).

(** The trace begins with the push of the start uri and each event is an
    allowed successor of the one before. *)
Definition ordered (uri : string) (st : walker_state World) : Prop :=
  head (trace st) = Some (ev_push uri) ∧ chain (follows pred_) (trace st).

(** At the top of the loop the next event is a pop. *)
Definition at_top (st : walker_state World) : Prop :=
  ∀ a, last (trace st) = Some a → ∀ v, follows pred_ a (ev_pop v).
End WalkerReading.

(** ** Sample documents *)

Module Sample.

Definition no_literal : raptor_term_literal_value :=
  {| lit_string := []; lit_string_len := 0; datatype := None |}.

Definition no_blank : raptor_term_blank_value :=
  {| blank_string := []; blank_string_len := 0 |}.

Definition uri_node (s : string) : raptor_term :=
  {| type := RAPTOR_TERM_TYPE_URI;
     value := {| uri := Some (String.list_byte_of_string s);
                 literal := no_literal; blank := no_blank |} |}.

Definition literal_node (s : string) : raptor_term :=
  {| type := RAPTOR_TERM_TYPE_LITERAL;
     value := {| uri := None;
                 literal := {| lit_string := String.list_byte_of_string s;
                               lit_string_len := String.length s;
                               datatype := None |};
                 blank := no_blank |} |}.

Definition unknown_node : raptor_term :=
  {| type := RAPTOR_TERM_TYPE_UNKNOWN;
     value := {| uri := None; literal := no_literal; blank := no_blank |} |}.

Definition link (from to : string) : raptor_statement :=
  {| st_subject := uri_node from; st_predicate := uri_node "seeAlso";
     st_object := uri_node to |}.

Definition label (from l : string) : raptor_statement :=
  {| st_subject := uri_node from; st_predicate := uri_node "label";
     st_object := literal_node l |}.

(** A document at [from] whose statements link to [tos], in order. *)
Definition document (from : string) (tos : list string) : raptor_run :=
  {| new_uri_is_null := false;
     callbacks := (λ to, on_statement (link from to)) <$> tos |}.

Definition parse_error : raptor_log_message :=
  {| level := RAPTOR_LOG_LEVEL_ERROR; text := "XML parser error" |}.

(** Nothing could be retrieved. *)
Definition unreachable : raptor_run :=
  {| new_uri_is_null := false; callbacks := [on_log_message parse_error] |}.

(** One statement is read, then the document turns out to be broken. *)
Definition truncated : raptor_run :=
  {| new_uri_is_null := false;
     callbacks := [on_statement (link "A" "B"); on_log_message parse_error] |}.

Definition warning : raptor_log_message :=
  {| level := RAPTOR_LOG_LEVEL_WARN; text := "unknown attribute" |}.

(** An error is logged and a warning after it. *)
Definition noisy : raptor_run :=
  {| new_uri_is_null := false;
     callbacks := [on_log_message parse_error; on_log_message warning] |}.

(** A statement whose object has a type that is none of the three. *)
Definition malformed : raptor_run :=
  {| new_uri_is_null := false;
     callbacks := [on_statement {| st_subject := uri_node "A";
                                   st_predicate := uri_node "seeAlso";
                                   st_object := unknown_node |}] |}.

(** Labels and a link, mixed. *)
Definition mixed : raptor_run :=
  {| new_uri_is_null := false;
     callbacks := [on_statement (label "A" "first"); on_statement (link "A" "B");
                   on_statement (label "A" "second")] |}.

(** A predicate that admits the triples whose object is a uri. *)
Definition links_only : rdf_triple → bool := λ t, is_uri (object t).

(** A web given by its links; [None] is a uri that cannot be read. The
    world is the list of uris that [store_uris] has collected. *)
Definition web (links : string → option (list string))
  : string → list string → raptor_run * list string :=
  λ u w, (match links u with
          | Some tos => document u tos
          | None => unreachable
          end, w).

(** [visitors::store_uris] *)
Definition store_uris : @visitor (list string) :=
  λ str _ uris_, Return (uris_ ++ [str]).

(** A visitor that always throws. *)
Definition throwing : @visitor (list string) :=
  λ _ _ _, Throw (visitor_exception "stop").

Definition accept_all : rdf_triple → bool := λ _, true.

(** A → B, C;  B → D;  C → D. *)
Definition diamond (u : string) : option (list string) :=
  if decide (u = "A") then Some ["B"; "C"]
  else if decide (u = "B") then Some ["D"]
  else if decide (u = "C") then Some ["D"]
  else if decide (u = "D") then Some []
  else None.

(** A → B → A. *)
Definition cycle (u : string) : option (list string) :=
  if decide (u = "A") then Some ["B"]
  else if decide (u = "B") then Some ["A"]
  else None.

(** Nothing can be read. *)
Definition nowhere (u : string) : option (list string) := None.

(** A → X, B;  B → X;  X cannot be read. *)
Definition broken_link (u : string) : option (list string) :=
  if decide (u = "A") then Some ["X"; "B"]
  else if decide (u = "B") then Some ["X"]
  else None.


End Sample.

(** ** Printing

    An output stream is the text written to it so far. *)

Definition newline : string := String (Ascii.ascii_of_nat 10) EmptyString.

(** [operator<<(std::ostream&, unsigned_string const&)] *)
Definition print_unsigned_string (os : string) (str : unsigned_string) : string :=
  os +:+ to_std_string str.

(** [operator<<(std::ostream&, rdf_term const&)]: the print visitor has one
    overload for each kind of term. *)
Definition print_rdf_term (os : string) (rhs : rdf_term) : string :=
  match rhs with
  | term_uri u => print_unsigned_string os (uri_ u)
  | term_literal lit => print_unsigned_string os (literal_ lit)
  | term_blank blnk => print_unsigned_string os (str_ blnk)
  end.

(** [operator<<(std::ostream&, rdf_triple const&)] *)
Definition print_rdf_triple (os : string) (t : rdf_triple) : string :=
  print_rdf_term
    (print_rdf_term (print_rdf_term os (subject t) +:+ " ") (predicate t) +:+ " ")
    (object t).

(** The text of a term, as the three accessors [uri()], [value()] and
    [value()] give it. *)
Definition term_text (t : rdf_term) : unsigned_string :=
  match t with
  | term_uri u => uri_ u
  | term_literal lit => literal_ lit
  | term_blank blnk => str_ blnk
  end.

(** ** The handlers with what they write, and [rdf_parser] *)

Record console : Type := { cout : string; cerr : string }.

Definition write_cout (s : string) (c : console) : console :=
  {| cout := cout c +:+ s; cerr := cerr c |}.

Definition write_cerr (s : string) (c : console) : console :=
  {| cout := cout c; cerr := cerr c +:+ s |}.

(** [rdf_web_parser::handle_log_messages]: the text goes to [std::cerr]
    when the flag has just been set to [false]. *)
Definition web_handle_log_messages (data : parse_data) (c : console)
    (message : raptor_log_message) : parse_data * console :=
  let data' := handle_log_messages data message in
  (data', if good_parse data' then c else write_cerr (text message +:+ newline) c).

(** [rdf_parser::handle_log_messages]: the test is commented out, every
    text goes to [std::cerr]. *)
Definition file_handle_log_messages (data : parse_data) (c : console)
    (message : raptor_log_message) : parse_data * console :=
  (handle_log_messages data message, write_cerr (text message +:+ newline) c).

(** [rdf_parser::handle_statement]: a line on [std::cout], then the same
    [push_back] as in the web parser. *)
Definition file_handle_statement (data : parse_data) (c : console)
    (statement : raptor_statement) : result parse_data * console :=
  (handle_statement data statement, write_cout ("statement handler" +:+ newline) c).

Fixpoint web_run_callbacks (cbs : list raptor_callback) (data : parse_data)
    (c : console) : result parse_data * console :=
  match cbs with
  | [] => (Return data, c)
  | on_statement statement :: rest =>
      match handle_statement data statement with
      | Return data' => web_run_callbacks rest data' c
      | Throw e => (Throw e, c)
      end
  | on_log_message message :: rest =>
      let '(data', c') := web_handle_log_messages data c message in
      web_run_callbacks rest data' c'
  end.

Fixpoint file_run_callbacks (cbs : list raptor_callback) (data : parse_data)
    (c : console) : result parse_data * console :=
  match cbs with
  | [] => (Return data, c)
  | on_statement statement :: rest =>
      match file_handle_statement data c statement with
      | (Return data', c') => file_run_callbacks rest data' c'
      | (Throw e, c') => (Throw e, c')
      end
  | on_log_message message :: rest =>
      let '(data', c') := file_handle_log_messages data c message in
      file_run_callbacks rest data' c'
  end.

(** [rdf_web_parser::operator()] together with the console. *)
Definition rdf_web_parser_console (run : raptor_run) (c : console)
  : result (bool * list rdf_triple) * console :=
  if new_uri_is_null run
  then (Throw (domain_error "Failed to initialize raptor uri"), c)
  else
    match web_run_callbacks (callbacks run) {| triples := []; good_parse := true |} c with
    | (Return data, c') => (Return (good_parse data, triples data), c')
    | (Throw e, c') => (Throw e, c')
    end.

(** One parse of a local file: whether [std::fopen] gave a null pointer,
    the value [raptor_parser_parse_file_stream] returns, and the callbacks
    made meanwhile. *)
Record file_run : Type := {
  stream_is_null : bool;
  parse_status : Z;
  file_callbacks : list raptor_callback
}.

(** [rdf_parser::operator()(file_name, dest)]. When [std::fopen] fails the
    null pointer is handed to [std::fclose], which has no defined
    behaviour: the value is [None]. *)
Definition rdf_parser_call (run : file_run) (c : console)
  : option (result (bool * list rdf_triple) * console) :=
  if stream_is_null run then None
  else
    let c0 := write_cout ("top" +:+ newline) c in
    match file_run_callbacks (file_callbacks run)
            {| triples := []; good_parse := true |} c0 with
    | (Return data, c1) =>
        let c2 := write_cout (pretty (parse_status run) +:+ newline) c1 in
        let c3 := write_cout ("bottom" +:+ newline) c2 in
        Some (Return (good_parse data, triples data), c3)
    | (Throw e, c1) => Some (Throw e, c1)
    end.

(** The lines that the messages make on [std::cerr]. *)
Definition message_lines (ms : list raptor_log_message) : string :=
  foldr (λ m s, text m +:+ newline +:+ s) "" ms.

Fixpoint repeat_line (n : nat) (line : string) : string :=
  match n with
  | 0 => ""
  | S n' => line +:+ newline +:+ repeat_line n' line
  end.

(** ** The factory's default predicate *)

(** [factories::true_const_pred] *)
Definition true_const_pred : rdf_triple → bool := λ _, true.

(** What a successful parse hands to the visitor when nothing is
    filtered. *)
Definition delivered_whole (p : string * result (bool * list rdf_triple))
  : option (string * list rdf_triple) :=
  match p with
  | (u, Return (true, ts)) => Some (u, ts)
  | _ => None
  end.

(** ** The ready-made visitors

    The visitors hold references to objects of the caller: a stream, a
    list of uris, a list of triples, a counter. [heap] holds one object of
    each kind beside [std::cout] and whatever the network keeps. *)

Module Visitors.

Record heap (Net : Type) : Type := {
  net : Net;
  stdout : string;
  os_ : string;
  uris_ : list string;
  triple_store_ : list rdf_triple;
  size_ : Z
}.
Arguments net {Net} h.
Arguments stdout {Net} h.
Arguments os_ {Net} h.
Arguments uris_ {Net} h.
Arguments triple_store_ {Net} h.
Arguments size_ {Net} h.

Definition set_stdout {Net} (s : string) (h : heap Net) : heap Net :=
  {| net := net h; stdout := s; os_ := os_ h; uris_ := uris_ h;
     triple_store_ := triple_store_ h; size_ := size_ h |}.

Definition set_os {Net} (s : string) (h : heap Net) : heap Net :=
  {| net := net h; stdout := stdout h; os_ := s; uris_ := uris_ h;
     triple_store_ := triple_store_ h; size_ := size_ h |}.

Definition set_uris {Net} (l : list string) (h : heap Net) : heap Net :=
  {| net := net h; stdout := stdout h; os_ := os_ h; uris_ := l;
     triple_store_ := triple_store_ h; size_ := size_ h |}.

Definition set_triple_store {Net} (l : list rdf_triple) (h : heap Net) : heap Net :=
  {| net := net h; stdout := stdout h; os_ := os_ h; uris_ := uris_ h;
     triple_store_ := l; size_ := size_ h |}.

Definition set_size {Net} (n : Z) (h : heap Net) : heap Net :=
  {| net := net h; stdout := stdout h; os_ := os_ h; uris_ := uris_ h;
     triple_store_ := triple_store_ h; size_ := n |}.

(** Each triple of the range followed by a newline. *)
Fixpoint print_lines (os : string) (range : list rdf_triple) : string :=
  match range with
  | [] => os
  | t :: rest => print_lines (print_rdf_triple os t +:+ newline) rest
  end.

Definition separator : string :=
  "==============================================================".

Definition print_triples {Net} : @visitor (heap Net) :=
  λ _ range h,
    Return (set_stdout (print_lines (stdout h) range +:+ separator +:+ newline) h).

Definition print_uris {Net} : @visitor (heap Net) :=
  λ uri _ h, Return (set_stdout (stdout h +:+ uri +:+ newline) h).

(** [std::copy] to an [ostream_iterator] with delimiter ["\n"]. *)
Definition output_triples {Net} : @visitor (heap Net) :=
  λ _ range h, Return (set_os (print_lines (os_ h) range) h).

(** [std::copy] to a [back_inserter]. *)
Definition store_triples {Net} : @visitor (heap Net) :=
  λ _ range h, Return (set_triple_store (triple_store_ h ++ range) h).

(** [std::copy_if] to a [back_inserter]. *)
Definition store_triples_if {Net} (pred_ : rdf_triple → bool) : @visitor (heap Net) :=
  λ _ range h,
    Return (set_triple_store (triple_store_ h ++ List.filter pred_ range) h).

Definition store_uris {Net} : @visitor (heap Net) :=
  λ str _ h, Return (set_uris (uris_ h ++ [str]) h).

(** [count_nodes<std::size_t>]: [++size_] on a 64-bit unsigned counter. *)
Definition count_nodes {Net} : @visitor (heap Net) :=
  λ _ _ h, Return (set_size ((size_ h + 1) mod 2 ^ 64) h).

(** A web that answers from a table of links and keeps the heap as it
    is. *)
Definition web {Net} (links : string → option (list string))
  : string → heap Net → raptor_run * heap Net :=
  λ u h, (match links u with
          | Some tos => Sample.document u tos
          | None => Sample.unreachable
          end, h).

Definition empty_heap : heap unit :=
  {| net := tt; stdout := ""; os_ := ""; uris_ := []; triple_store_ := [];
     size_ := 0 |}.

End Visitors.

(** A local copy of the truncated document, read with status [1]. *)
Definition truncated_file : file_run :=
  {| stream_is_null := false; parse_status := 1;
     file_callbacks := callbacks Sample.truncated |}.

Definition empty_console : console := {| cout := ""; cerr := "" |}.

(** ** A predicate that throws

    [pred_] is code of the caller. It is called inside [std::remove_if], and
    when it throws the exception leaves [operator()]. Here the predicate
    gives a [result]; everything else is as in [remove_if] and
    [loop_body]. *)

Section RemoveIfThrowing.
Context {A : Type}.
Variable p : A → result bool.

Fixpoint find_if_throwing (l : list A) : result nat :=
  match l with
  | [] => Return 0
  | x :: l' =>
      match p x with
      | Throw e => Throw e
      | Return true => Return 0
      | Return false =>
          match find_if_throwing l' with
          | Return n => Return (S n)
          | Throw e => Throw e
          end
      end
  end.

Fixpoint remove_if_loop_throwing (n first kept : nat) (a : list A)
  : result (list A * nat) :=
  match n with
  | 0 => Return (a, kept)
  | S n' =>
      match a !! first with
      | Some x =>
          match p x with
          | Throw e => Throw e
          | Return true => remove_if_loop_throwing n' (S first) kept a
          | Return false =>
              remove_if_loop_throwing n' (S first) (S kept) (<[kept := x]> a)
          end
      | None => Return (a, kept)
      end
  end.

Definition remove_if_throwing (a : list A) : result (list A * nat) :=
  match find_if_throwing a with
  | Throw e => Throw e
  | Return first =>
      if decide (first = length a) then Return (a, first)
      else remove_if_loop_throwing (length a - S first) (S first) first a
  end.
End RemoveIfThrowing.

Section WalkerThrowing.
Context {World : Type}.
Variable raptor : string → World → raptor_run * World.
Variable func_ : string → list rdf_triple → World → result World.
Variable pred_ : rdf_triple → result bool.

(** The lambda handed to [std::remove_if]: [!pred_(t)]. *)
Definition not_pred (t : rdf_triple) : result bool :=
  match pred_ t with
  | Return b => Return (negb b)
  | Throw e => Throw e
  end.

Definition loop_body_throwing (current_uri : string) (st : walker_state World)
  : step_result World :=
  if decide (current_uri ∈ closed_list st) then Continue st
  else
    let st1 := {| closed_list := {[current_uri]} ∪ closed_list st;
                  fringe := fringe st; world := world st;
                  trace := trace st ++ [ev_insert current_uri] |} in
    let '(run, w) := raptor current_uri (world st1) in
    let r := rdf_web_parser_call run in
    let st2 := {| closed_list := closed_list st1; fringe := fringe st1;
                  world := w; trace := trace st1 ++ [ev_parse current_uri r] |} in
    match r with
    | Throw e => Abort e st2
    | Return (good_rdf, triples) =>
        if good_rdf then
          match remove_if_throwing not_pred triples with
          | Throw e => Abort e st2
          | Return (triples', new_end) =>
              let view := take new_end triples' in
              let st3 := log [ev_visit current_uri view] st2 in
              match func_ current_uri view (world st3) with
              | Throw e => Abort e st3
              | Return w' =>
                  add_to_fringe view
                    {| closed_list := closed_list st3; fringe := fringe st3;
                       world := w'; trace := trace st3 |}
              end
          end
        else Continue st2
    end.

Fixpoint walk_loop_throwing (fuel : nat) (st : walker_state World) : outcome World :=
  match fringe st with
  | [] => Finished st
  | current_uri :: rest =>
      match fuel with
      | 0 => Running st
      | S fuel' =>
          match loop_body_throwing current_uri
                  {| closed_list := closed_list st; fringe := rest;
                     world := world st;
                     trace := trace st ++ [ev_pop current_uri] |} with
          | Continue st' => walk_loop_throwing fuel' st'
          | Abort e st' => Raised e st'
          end
      end
  end.

Definition walk_throwing (fuel : nat) (uri : string) (w : World) : outcome World :=
  walk_loop_throwing fuel (start uri w).
End WalkerThrowing.

(** * Properties *)

(** ** Term model *)

Lemma one_variant_active (t : rdf_term) :
  (is_uri t, is_literal t, is_blank t) = (true, false, false)
  ∨ (is_uri t, is_literal t, is_blank t) = (false, true, false)
  ∨ (is_uri t, is_literal t, is_blank t) = (false, false, true).
Proof. destruct t; simpl; auto. Qed.

(** C9. Casting a term to a variant gives the payload when that variant is
    the active one and throws [domain_error "bad cast"] otherwise (never
    [bad_get]); the cast returns exactly when the matching predicate
    answers [true], so testing first avoids the exception. *)
Theorem term_cast_projects (t : rdf_term) :
  term_cast_rdf_uri t
    = match t with term_uri u => Return u | _ => Throw (domain_error "bad cast") end
  ∧ term_cast_rdf_literal t
    = match t with term_literal l => Return l | _ => Throw (domain_error "bad cast") end
  ∧ term_cast_rdf_blank t
    = match t with term_blank b => Return b | _ => Throw (domain_error "bad cast") end
  ∧ returns (term_cast_rdf_uri t) = is_uri t
  ∧ returns (term_cast_rdf_literal t) = is_literal t
  ∧ returns (term_cast_rdf_blank t) = is_blank t.
Proof. by destruct t. Qed.

Lemma known_type_cases (rterm : raptor_term) :
  known_type rterm ↔
  ((type rterm =? RAPTOR_TERM_TYPE_URI)%Z
   || (type rterm =? RAPTOR_TERM_TYPE_LITERAL)%Z
   || (type rterm =? RAPTOR_TERM_TYPE_BLANK)%Z) = true.
Proof.
  unfold known_type. rewrite !orb_true_iff, !Z.eqb_eq. tauto.
Qed.

Lemma make_rdf_term_returns (rterm : raptor_term) :
  known_type rterm ↔ returns (make_rdf_term rterm) = true.
Proof.
  rewrite known_type_cases. unfold make_rdf_term.
  repeat (destruct (_ =? _)%Z; simpl; try tauto).
Qed.

(** C10. [make_rdf_term] returns exactly when the raw type is uri, literal
    or blank, and then yields the variant of that type built from the
    matching member of the union; for every other type it throws
    [domain_error "bad rdf data"]. Every term has exactly one of the three
    variants active. *)
Theorem make_rdf_term_total (rterm : raptor_term) :
  match make_rdf_term rterm with
  | Return (term_uri u) =>
      type rterm = RAPTOR_TERM_TYPE_URI ∧ u = new_rdf_uri (uri (value rterm))
  | Return (term_literal l) =>
      type rterm = RAPTOR_TERM_TYPE_LITERAL
      ∧ l = new_rdf_literal (literal (value rterm))
  | Return (term_blank b) =>
      type rterm = RAPTOR_TERM_TYPE_BLANK ∧ b = new_rdf_blank (blank (value rterm))
  | Throw e => ¬ known_type rterm ∧ e = domain_error "bad rdf data"
  end
  ∧ (known_type rterm ↔ returns (make_rdf_term rterm) = true)
  ∧ ∀ t : rdf_term,
      (is_uri t, is_literal t, is_blank t) = (true, false, false)
      ∨ (is_uri t, is_literal t, is_blank t) = (false, true, false)
      ∨ (is_uri t, is_literal t, is_blank t) = (false, false, true).
Proof.
  split; [|split; [apply make_rdf_term_returns | apply one_variant_active]].
  pose proof (make_rdf_term_returns rterm) as Hk. revert Hk.
  unfold make_rdf_term.
  destruct (Z.eqb_spec (type rterm) RAPTOR_TERM_TYPE_URI); [done|].
  destruct (Z.eqb_spec (type rterm) RAPTOR_TERM_TYPE_LITERAL); [done|].
  destruct (Z.eqb_spec (type rterm) RAPTOR_TERM_TYPE_BLANK); [done|].
  simpl. intros Hk. split; [|done]. intros Hkn. apply Hk in Hkn. done.
Qed.

(** ** Web parser *)

Lemma handle_statement_well_typed data statement :
  well_typed statement →
  ∃ t, handle_statement data statement
       = Return {| triples := triples data ++ [t]; good_parse := good_parse data |}
       ∧ make_rdf_term (st_subject statement) = Return (subject t)
       ∧ make_rdf_term (st_predicate statement) = Return (predicate t)
       ∧ make_rdf_term (st_object statement) = Return (object t).
Proof.
  intros (Hs & Hp & Ho).
  apply make_rdf_term_returns in Hs, Hp, Ho. unfold handle_statement.
  destruct (make_rdf_term (st_subject statement)) as [s|]; [|done].
  destruct (make_rdf_term (st_predicate statement)) as [p|]; [|done].
  destruct (make_rdf_term (st_object statement)) as [o|]; [|done].
  by exists {| subject := s; predicate := p; object := o |}.
Qed.

Lemma handle_log_messages_flag data m :
  good_parse (handle_log_messages data m) = negb (is_error m).
Proof.
  unfold handle_log_messages, is_error. simpl.
  destruct (Z.eqb_spec (level m) RAPTOR_LOG_LEVEL_ERROR),
           (Z.eqb_spec (level m) RAPTOR_LOG_LEVEL_FATAL); simpl;
    symmetry; rewrite ?negb_true_iff, ?negb_false_iff,
      ?bool_decide_eq_true, ?bool_decide_eq_false; tauto.
Qed.

Lemma run_callbacks_well_typed cbs data :
  Forall well_typed (statements cbs) →
  ∃ ts, run_callbacks cbs data
        = Return {| triples := triples data ++ ts;
                    good_parse := flag_after cbs (good_parse data) |}
        ∧ Forall2 converts (statements cbs) ts.
Proof.
  revert data. induction cbs as [|[statement|m] cbs IH]; intros data Hwt.
  - exists []. split; [|constructor]. simpl. rewrite app_nil_r. by destruct data.
  - unfold statements in Hwt. simpl in Hwt. apply Forall_cons in Hwt as [Hs Hwt].
    destruct (handle_statement_well_typed data statement Hs) as (t & Hh & Hc).
    destruct (IH {| triples := triples data ++ [t]; good_parse := good_parse data |} Hwt)
      as (ts & Hr & Hts).
    exists (t :: ts). split.
    + simpl. rewrite Hh. simpl. rewrite Hr. simpl. by rewrite <- app_assoc.
    + unfold statements. simpl. by constructor.
  - destruct (IH (handle_log_messages data m) Hwt) as (ts & Hr & Hts).
    exists ts. split; [|done].
    change (run_callbacks (on_log_message m :: cbs) data)
      with (run_callbacks cbs (handle_log_messages data m)).
    rewrite Hr, handle_log_messages_flag. do 2 f_equal.
    unfold flag_after.
    change (log_messages (on_log_message m :: cbs)) with (m :: log_messages cbs).
    destruct (log_messages cbs) as [|m' l] eqn:Hl; [done|].
    rewrite last_cons_cons.
    destruct (last (m' :: l)) eqn:Hlast; [done|]. by apply last_None in Hlast.
Qed.

(** C5, as the sources have it. Log messages never make the parser throw:
    when [raptor_new_uri] yields an object and every statement has terms of
    known type, the call returns. The caller receives every statement
    handed over during the parse, converted and in order, whether or not
    the parse is reported as failed. The flag is [false] when the last
    message logged is an error or a fatal error, and [true] when no message
    is one. *)
Theorem web_parser_failure_report (run : raptor_run) :
  new_uri_is_null run = false →
  Forall well_typed (statements (callbacks run)) →
  ∃ good ts,
    rdf_web_parser_call run = Return (good, ts)
    ∧ Forall2 converts (statements (callbacks run)) ts
    ∧ ((∃ m, last (log_messages (callbacks run)) = Some m ∧ is_error m = true) →
       good = false)
    ∧ (Forall (λ m, is_error m = false) (log_messages (callbacks run)) →
       good = true).
Proof.
  intros Hnew Hwt. unfold rdf_web_parser_call. rewrite Hnew.
  destruct (run_callbacks_well_typed (callbacks run)
              {| triples := []; good_parse := true |} Hwt) as (ts & Hr & Hts).
  rewrite Hr. simpl. exists (flag_after (callbacks run) true), ts.
  split; [done|]. split; [done|]. unfold flag_after. split.
  - intros (m & -> & Hm). by rewrite Hm.
  - intros Hall. destruct (last (log_messages (callbacks run))) as [m|] eqn:Hlast; [|done].
    apply last_Some_elem_of in Hlast.
    rewrite Forall_forall in Hall. by rewrite (Hall m Hlast).
Qed.

Lemma web_parser_failure_report_witness :
  ∃ good ts,
    rdf_web_parser_call Sample.truncated = Return (good, ts)
    ∧ Forall2 converts (statements (callbacks Sample.truncated)) ts
    ∧ ((∃ m, last (log_messages (callbacks Sample.truncated)) = Some m
             ∧ is_error m = true) → good = false)
    ∧ (Forall (λ m, is_error m = false) (log_messages (callbacks Sample.truncated)) →
       good = true).
Proof.
  apply (web_parser_failure_report Sample.truncated); [reflexivity|].
  apply Forall_cons; split; [|constructor]. repeat split; by left.
Defined.

(** C5, as the claim has it, fails: a document that breaks off after its
    first statement is reported as failed, and that statement is handed to
    the caller all the same. *)
Lemma truncated_document_delivers_triples :
  ¬ failure_delivers_nothing Sample.truncated.
Proof.
  intros H. specialize (H _ eq_refl). discriminate H.
Qed.

(** The flag follows the last message only: an error followed by a warning
    is reported as a good parse. *)
Example error_then_warning_is_reported_good :
  rdf_web_parser_call Sample.noisy = Return (true, []).
Proof. reflexivity. Qed.

Example unknown_term_type_throws :
  rdf_web_parser_call Sample.malformed = Throw (domain_error "bad rdf data").
Proof. reflexivity. Qed.

(** ** Aggregate *)

Lemma fusion_for_each_value {World : Type} (fs : list (@visitor World)) :
  ∀ i caller w calls,
    (fusion_for_each i fs caller w calls).1.1 = (fusion_for_each 0 fs caller w []).1.1
    ∧ (fusion_for_each i fs caller w calls).2 = (fusion_for_each 0 fs caller w []).2.
Proof.
  induction fs as [|f fs IH]; intros i caller w calls; [done|]. simpl.
  destruct (call_me_call caller f w) as [w'|e]; [|done].
  destruct (IH (S i) caller w' (calls ++ [(i, cm_str caller, cm_range caller)]))
    as [H1 H2].
  destruct (IH 1 caller w' [(0, cm_str caller, cm_range caller)]) as [H3 H4].
  split; congruence.
Qed.

Lemma aggregate_cons {World : Type} (f : @visitor World) (fs : list (@visitor World))
    (str : string) (range : list rdf_triple) (w : World) :
  aggregate (f :: fs) str range w = f str range w ≫= aggregate fs str range.
Proof.
  unfold aggregate, aggregate_call. simpl. unfold call_me_call. simpl.
  destruct (f str range w) as [w'|e]; [|done]. apply fusion_for_each_value.
Qed.

Lemma aggregate_app {World : Type} (fs gs : list (@visitor World))
    (str : string) (range : list rdf_triple) :
  ∀ w, aggregate (fs ++ gs) str range w
       = aggregate fs str range w ≫= aggregate gs str range.
Proof.
  induction fs as [|f fs IH]; intros w; [done|].
  simpl. rewrite !aggregate_cons. destruct (f str range w) as [w'|e]; [|done].
  apply IH.
Qed.

Lemma fusion_for_each_calls {World : Type} (fs : list (@visitor World)) :
  ∀ i caller w calls,
    ∃ k, (fusion_for_each i fs caller w calls).1.2
           = calls ++ ((λ j, (j, cm_str caller, cm_range caller)) <$> seq i k)
       ∧ match (fusion_for_each i fs caller w calls).1.1 with
         | Return w' =>
             k = length fs ∧ (fusion_for_each i fs caller w calls).2 = w'
         | Throw e =>
             ∃ j f w', k = S j ∧ fs !! j = Some f
                       ∧ aggregate (take j fs) (cm_str caller) (cm_range caller) w
                         = Return w'
                       ∧ f (cm_str caller) (cm_range caller) w' = Throw e
                       ∧ (fusion_for_each i fs caller w calls).2 = w'
         end.
Proof.
  induction fs as [|f fs IH]; intros i caller w calls.
  - exists 0. simpl. by rewrite app_nil_r.
  - simpl. unfold call_me_call.
    destruct (f (cm_str caller) (cm_range caller) w) as [w'|e] eqn:Hf.
    + destruct (IH (S i) caller w'
                  (calls ++ [(i, cm_str caller, cm_range caller)])) as (k & Hc & Hr).
      exists (S k). split.
      * rewrite Hc. simpl. by rewrite <- app_assoc.
      * destruct (fusion_for_each _ _ _ _ _).1.1.
        { destruct Hr as [-> Hleft]. by split. }
        destruct Hr as (j & g & w0 & -> & Hg & Hbefore & Hthrow & Hleft).
        exists (S j), g, w0. repeat split; try done.
        simpl. rewrite aggregate_cons, Hf. exact Hbefore.
    + exists 1. simpl. split; [done|]. by exists 0, f, w.
Qed.

(** C8. One call of an aggregate of [N] visitors runs the components one
    after the other in the order in which they were given, each on the
    world the one before it left and each with the very uri and range the
    aggregate was called with: the empty aggregate returns the world as it
    is, and an aggregate with [f] in front does what [f] does and then, if
    [f] returns, what the aggregate of the others does. So when every
    component returns, each has been called once, at the positions
    [0 .. N-1], and the aggregate returns the world the last one left. When
    a component throws, the aggregate throws that exception; the
    components before it have all returned and what they wrote is what
    the world holds; the calls made are those of the positions up to and
    including the throwing one: no later component is called. *)
Theorem aggregate_fan_out {World : Type} (fs : list (@visitor World))
    (str : string) (range : list rdf_triple) (w : World) :
  aggregate [] str range w = Return w
  ∧ (∀ f : @visitor World,
       aggregate (f :: fs) str range w = f str range w ≫= aggregate fs str range)
  ∧ ∃ k, (aggregate_call fs str range w).1.2 = (λ j, (j, str, range)) <$> seq 0 k
       ∧ aggregate fs str range w = (aggregate_call fs str range w).1.1
       ∧ match (aggregate_call fs str range w).1.1 with
         | Return w' =>
             k = length fs ∧ (aggregate_call fs str range w).2 = w'
         | Throw e =>
             ∃ j f w', k = S j ∧ fs !! j = Some f
                       ∧ aggregate (take j fs) str range w = Return w'
                       ∧ f str range w' = Throw e
                       ∧ (aggregate_call fs str range w).2 = w'
         end.
Proof.
  split; [done|]. split; [intros f; apply aggregate_cons|].
  unfold aggregate_call.
  destruct (fusion_for_each_calls fs 0 {| cm_str := str; cm_range := range |} w [])
    as (k & Hc & Hr).
  exists k. by repeat split.
Qed.

(** Three visitors, the second of which throws: the third is not called,
    and what the first wrote stays written. *)
Example aggregate_of_three :
  aggregate_call [Sample.store_uris; Sample.throwing; Sample.store_uris] "A" [] []
  = (Throw (visitor_exception "stop"), [(0, "A", []); (1, "A", [])], ["A"]).
Proof. reflexivity. Qed.

(** ** [remove_if] keeps what the predicate rejects, in order *)

Section RemoveIfFacts.
Context {A : Type}.
Variable p : A → bool.

Lemma find_if_le (l : list A) : (find_if p l ≤ length l)%nat.
Proof. induction l as [|x l IH]; simpl; [lia|]. destruct (p x); simpl; lia. Qed.

Lemma find_if_prefix (l : list A) :
  List.filter (λ x, negb (p x)) (take (find_if p l) l) = take (find_if p l) l.
Proof.
  induction l as [|x l IH]; simpl; [done|].
  destruct (p x) eqn:Hx; simpl; [done|]. rewrite Hx. simpl. by rewrite IH.
Qed.

Lemma find_if_found (l : list A) :
  (find_if p l < length l)%nat → ∃ x, l !! find_if p l = Some x ∧ p x = true.
Proof.
  induction l as [|x l IH]; simpl; [lia|].
  destruct (p x) eqn:Hx; simpl; [by exists x|]. intros Hlt. apply IH. lia.
Qed.

Lemma remove_if_loop_spec (n : nat) :
  ∀ first result a,
    (result < first)%nat → first + n = length a →
    take (remove_if_loop p n first result a).2 (remove_if_loop p n first result a).1
    = take result a ++ List.filter (λ x, negb (p x)) (drop first a).
Proof.
  induction n as [|n IH]; intros first result a Hlt Hlen; simpl.
  - rewrite drop_ge by lia. simpl. by rewrite app_nil_r.
  - destruct (lookup_lt_is_Some_2 a first) as [x Hx]; [lia|]. rewrite Hx.
    rewrite (drop_S a x first Hx). simpl.
    destruct (p x); simpl.
    + apply IH; lia.
    + rewrite IH by (rewrite ?length_insert; lia).
      rewrite drop_insert_lt by lia.
      rewrite (take_S_r _ _ x) by (apply list_lookup_insert_eq; lia).
      rewrite take_insert_ge by lia. by rewrite <- app_assoc.
Qed.

Lemma remove_if_spec (a : list A) :
  take (remove_if p a).2 (remove_if p a).1 = List.filter (λ x, negb (p x)) a.
Proof.
  unfold remove_if. case_decide as Hfull; simpl.
  - rewrite <- (find_if_prefix a), Hfull. by rewrite firstn_all.
  - pose proof (find_if_le a) as Hle.
    destruct (find_if_found a) as (x & Hx & Hpx); [lia|].
    rewrite remove_if_loop_spec by lia.
    assert (List.filter (λ x, negb (p x)) a
            = List.filter (λ x, negb (p x)) (take (find_if p a) a)
              ++ List.filter (λ x, negb (p x)) (drop (find_if p a) a)) as ->
      by (by rewrite <- List.filter_app, take_drop).
    rewrite find_if_prefix. f_equal.
    rewrite (drop_S a x _ Hx). simpl. by rewrite Hpx.
Qed.
End RemoveIfFacts.

(** ** The walker *)

Lemma visits_app tr1 tr2 : visits (tr1 ++ tr2) = visits tr1 ++ visits tr2.
Proof. apply omap_app. Qed.

Lemma visited_app tr1 tr2 : visited (tr1 ++ tr2) = visited tr1 ++ visited tr2.
Proof. unfold visited. by rewrite visits_app, fmap_app. Qed.

Lemma parses_app tr1 tr2 : parses (tr1 ++ tr2) = parses tr1 ++ parses tr2.
Proof. apply omap_app. Qed.

Lemma parsed_app tr1 tr2 : parsed (tr1 ++ tr2) = parsed tr1 ++ parsed tr2.
Proof. unfold parsed. by rewrite parses_app, fmap_app. Qed.

Lemma pushed_app tr1 tr2 : pushed (tr1 ++ tr2) = pushed tr1 ++ pushed tr2.
Proof. apply omap_app. Qed.

Lemma popped_app tr1 tr2 : popped (tr1 ++ tr2) = popped tr1 ++ popped tr2.
Proof. apply omap_app. Qed.

Lemma pushes_read (us : list string) :
  pushed (ev_push <$> us) = us ∧ popped (ev_push <$> us) = []
  ∧ visits (ev_push <$> us) = [] ∧ parses (ev_push <$> us) = [].
Proof.
  repeat split; induction us as [|u us IH]; try done.
  change (pushed (ev_push <$> u :: us)) with (u :: pushed (ev_push <$> us)).
  by rewrite IH.
Qed.

Lemma chain_cons_cons (R : event → event → Prop) (a b : event) (l : list event) :
  chain R (a :: b :: l) = (R a b ∧ chain R (b :: l)).
Proof. done. Qed.

Lemma chain_app (R : event → event → Prop) (l1 l2 : list event) :
  chain R l1 → chain R l2 →
  (∀ a b, last l1 = Some a → head l2 = Some b → R a b) →
  chain R (l1 ++ l2).
Proof.
  induction l1 as [|a [|b l1] IH]; intros H1 H2 Hlink; [done| |].
  - destruct l2 as [|b l2]; [done|]. simpl. rewrite chain_cons_cons.
    split; [by apply Hlink | done].
  - rewrite chain_cons_cons in H1. destruct H1 as [Hab H1].
    simpl. rewrite chain_cons_cons. split; [done|]. by apply IH.
Qed.

Lemma chain_lookup (R : event → event → Prop) (l : list event) :
  chain R l → ∀ i a b, l !! i = Some a → l !! S i = Some b → R a b.
Proof.
  induction l as [|x [|y l] IH]; intros Hl i a b Ha Hb; [done| |].
  - by destruct i.
  - rewrite chain_cons_cons in Hl. destruct Hl as [Hxy Hl]. destruct i as [|i].
    + simpl in Ha, Hb. by simplify_eq.
    + by apply (IH Hl i).
Qed.

Lemma chain_pushes (pred_ : rdf_triple → bool) (a : event) (us : list string) :
  (∀ v, follows pred_ a (ev_push v)) →
  chain (follows pred_) (a :: (ev_push <$> us)).
Proof.
  revert a. induction us as [|u us IH]; intros a Ha; [done|].
  simpl. rewrite chain_cons_cons. split; [apply Ha|]. by apply IH.
Qed.

Lemma last_pushes (pred_ : rdf_triple → bool) (a b : event) (us : list string) :
  (∀ v, follows pred_ a (ev_pop v)) →
  last (a :: (ev_push <$> us)) = Some b → ∀ v, follows pred_ b (ev_pop v).
Proof.
  revert a. induction us as [|u us IH]; intros a Ha Hlast.
  - simpl in Hlast. by simplify_eq.
  - apply (IH (ev_push u)); [done|]. by rewrite <- Hlast.
Qed.

Lemma head_app_Some {A : Type} (l1 l2 : list A) (x : A) :
  head l1 = Some x → head (l1 ++ l2) = Some x.
Proof. by destruct l1. Qed.

Lemma parsed_lookup (tr : list event) (i : nat) (u : string)
    (r : result (bool * list rdf_triple)) :
  tr !! i = Some (ev_parse u r) → (u, r) ∈ parses tr.
Proof.
  intros Hi. unfold parses. apply list_elem_of_omap.
  exists (ev_parse u r). split; [|done]. by eapply list_elem_of_lookup_2.
Qed.

Lemma parsed_once (tr : list event) :
  NoDup (parsed tr) →
  ∀ i j u r r', tr !! i = Some (ev_parse u r) → tr !! j = Some (ev_parse u r') → i = j.
Proof.
  induction tr as [|e tr IH]; intros Hnd i j u r r' Hi Hj; [done|].
  assert (NoDup (parsed tr)) as Hnd'.
  { unfold parsed, parses in *. simpl in Hnd. destruct e; simpl in Hnd; try done.
    by apply NoDup_cons in Hnd as [_ ?]. }
  assert (∀ k r0, e = ev_parse u r0 → tr !! k = None ∨ ∀ r1, tr !! k ≠ Some (ev_parse u r1))
    as Hfirst.
  { intros k r0 ->. right. intros r1 Hk%parsed_lookup.
    unfold parsed, parses in Hnd. simpl in Hnd. apply NoDup_cons in Hnd as [Hnotin _].
    apply Hnotin. change u with ((u, r1).1). by apply list_elem_of_fmap_2. }
  destruct i as [|i], j as [|j]; simpl in Hi, Hj; [done| | |].
  - simplify_eq. destruct (Hfirst j r eq_refl) as [Hn|Hn]; [congruence | by destruct (Hn r')].
  - simplify_eq. destruct (Hfirst i r' eq_refl) as [Hn|Hn]; [congruence | by destruct (Hn r)].
  - f_equal. by eapply IH.
Qed.

Lemma delivered_fst (pred_ : rdf_triple → bool)
    (ps : list (string * result (bool * list rdf_triple))) :
  (omap (delivered pred_) ps).*1 `sublist_of` ps.*1.
Proof.
  induction ps as [|[u [[[|] ts]|e]] ps IH]; simpl;
    [done | by apply sublist_skip | by apply sublist_cons..].
Qed.

Lemma delivered_good (pred_ : rdf_triple → bool)
    (ps : list (string * result (bool * list rdf_triple))) (u : string) :
  u ∈ (omap (delivered pred_) ps).*1 → ∃ ts, (u, Return (true, ts)) ∈ ps.
Proof.
  intros ([u' view] & -> & Hin)%list_elem_of_fmap.
  apply list_elem_of_omap in Hin as ([v [[[|] ts]|e]] & Hin & Hd); simpl in Hd;
    simplify_eq. by exists ts.
Qed.

Lemma fst_functional {A B : Type} (l : list (A * B)) (a : A) (b1 b2 : B) :
  NoDup l.*1 → (a, b1) ∈ l → (a, b2) ∈ l → b1 = b2.
Proof.
  induction l as [|[a' b'] l IH]; intros Hnd H1 H2; [by apply elem_of_nil in H1|].
  simpl in Hnd. apply NoDup_cons in Hnd as [Hnotin Hnd].
  apply elem_of_cons in H1 as [H1|H1], H2 as [H2|H2]; simplify_eq; [done| | |by apply IH].
  - destruct Hnotin. change a' with ((a', b2).1). by apply list_elem_of_fmap_2.
  - destruct Hnotin. change a' with ((a', b1).1). by apply list_elem_of_fmap_2.
Qed.

Lemma first_time_snoc (l : list string) :
  ∀ (seen : gset string) (u : string),
    first_time seen (l ++ [u])
    = first_time seen l
      ++ (if decide (u ∈ seen ∪ list_to_set l) then [] else [u]).
Proof.
  induction l as [|x l IH]; intros seen u; simpl.
  - repeat case_decide; try done; set_solver.
  - case_decide.
    + rewrite IH. repeat case_decide; try done; set_solver.
    + rewrite IH. simpl. repeat case_decide; try done; set_solver.
Qed.

Lemma chain_pred (R : event → event → Prop) (tr : list event) (e0 b : event)
    (i : nat) :
  head tr = Some e0 → chain R tr → tr !! i = Some b →
  (i = 0 ∧ b = e0) ∨ ∃ j a, i = S j ∧ tr !! j = Some a ∧ R a b.
Proof.
  intros Hhead Hchain Hi. destruct i as [|j].
  - left. rewrite <- head_lookup, Hhead in Hi. by simplify_eq.
  - right. destruct (lookup_lt_is_Some_2 tr j) as [a Ha];
      [apply lookup_lt_Some in Hi; lia|].
    exists j, a. repeat split; [done|]. by eapply chain_lookup.
Qed.

(** Appending one pass keeps: whenever a pop is directly followed by the
    insertion of its uri, the uri had not been popped before. *)
Lemma first_pop_extend (tr : list event) (u : string) (block : list event) :
  (∀ j v, tr !! j = Some (ev_pop v) → tr !! S j = Some (ev_insert v) →
          v ∉ popped (take j tr)) →
  Forall (λ e, ∀ v, e ≠ ev_pop v) block →
  (∀ v, head block = Some (ev_insert v) → u ∉ popped tr) →
  ∀ j v, (tr ++ ev_pop u :: block) !! j = Some (ev_pop v) →
         (tr ++ ev_pop u :: block) !! S j = Some (ev_insert v) →
         v ∉ popped (take j (tr ++ ev_pop u :: block)).
Proof.
  intros Hold Hblock Hfresh j v Hj HSj.
  destruct (decide (j < length tr)%nat) as [Hlt|Hge].
  - rewrite lookup_app_l in Hj by done. rewrite take_app_le by lia.
    destruct (decide (S j < length tr)%nat) as [Hlt'|Hge'].
    + rewrite lookup_app_l in HSj by done. by apply Hold.
    + rewrite lookup_app_r in HSj by lia.
      replace (S j - length tr) with 0 in HSj by lia. by simplify_eq.
  - rewrite lookup_app_r in Hj by lia. rewrite lookup_app_r in HSj by lia.
    destruct (j - length tr) as [|k] eqn:Hk.
    + replace (S j - length tr) with 1 in HSj by lia. simpl in Hj, HSj.
      simplify_eq. replace j with (length tr) by lia.
      rewrite take_app_length. apply (Hfresh v).
      by destruct block; simplify_eq.
    + simpl in Hj. apply list_elem_of_lookup_2 in Hj.
      rewrite Forall_forall in Hblock. by destruct (Hblock _ Hj v).
Qed.

Lemma references_cons (t : rdf_triple) (range : list rdf_triple) :
  references (t :: range)
  = match object t with
    | term_uri u => to_std_string (uri_ u) :: references range
    | _ => references range
    end.
Proof. unfold references. simpl. by destruct (object t). Qed.

Lemma make_rdf_term_throws (rterm : raptor_term) (e : exception) :
  make_rdf_term rterm = Throw e → e = domain_error "bad rdf data".
Proof.
  unfold make_rdf_term. repeat (destruct (_ =? _)%Z; [done|]). by intros [= <-].
Qed.

Lemma handle_statement_cases (data : parse_data) (statement : raptor_statement) :
  match handle_statement data statement with
  | Return _ => well_typed statement
  | Throw e => e = domain_error "bad rdf data" ∧ ¬ well_typed statement
  end.
Proof.
  unfold handle_statement, well_typed.
  pose proof (make_rdf_term_returns (st_subject statement)) as Hs.
  pose proof (make_rdf_term_returns (st_predicate statement)) as Hp.
  pose proof (make_rdf_term_returns (st_object statement)) as Ho.
  destruct (make_rdf_term (st_subject statement)) as [s|es] eqn:Es; simpl.
  2: { apply make_rdf_term_throws in Es. split; [done|]. intros (H & _).
       by apply Hs in H. }
  destruct (make_rdf_term (st_predicate statement)) as [p|ep] eqn:Ep; simpl.
  2: { apply make_rdf_term_throws in Ep. split; [done|]. intros (_ & H & _).
       by apply Hp in H. }
  destruct (make_rdf_term (st_object statement)) as [o|eo] eqn:Eo; simpl.
  2: { apply make_rdf_term_throws in Eo. split; [done|]. intros (_ & _ & H).
       by apply Ho in H. }
  repeat split; [apply Hs | apply Hp | apply Ho]; done.
Qed.

Lemma run_callbacks_cases (cbs : list raptor_callback) :
  ∀ data,
    match run_callbacks cbs data with
    | Return _ => Forall well_typed (statements cbs)
    | Throw e => e = domain_error "bad rdf data"
                 ∧ ¬ Forall well_typed (statements cbs)
    end.
Proof.
  induction cbs as [|[statement|m] cbs IH]; intros data.
  - constructor.
  - change (run_callbacks (on_statement statement :: cbs) data)
      with (handle_statement data statement ≫= run_callbacks cbs).
    change (statements (on_statement statement :: cbs))
      with (statement :: statements cbs).
    pose proof (handle_statement_cases data statement) as Hh.
    destruct (handle_statement data statement) as [data'|e]; simpl.
    + specialize (IH data'). destruct (run_callbacks cbs data').
      * by constructor.
      * destruct IH as [-> Hn]. split; [done|]. by intros [_ ?]%Forall_cons.
    + destruct Hh as [-> Hn]. split; [done|]. by intros [? _]%Forall_cons.
  - apply (IH (handle_log_messages data m)).
Qed.

Lemma rdf_web_parser_call_cases (run : raptor_run) :
  match rdf_web_parser_call run with
  | Return _ =>
      new_uri_is_null run = false ∧ Forall well_typed (statements (callbacks run))
  | Throw e =>
      (new_uri_is_null run = true
       ∧ e = domain_error "Failed to initialize raptor uri")
      ∨ (new_uri_is_null run = false
         ∧ ¬ Forall well_typed (statements (callbacks run))
         ∧ e = domain_error "bad rdf data")
  end.
Proof.
  unfold rdf_web_parser_call. destruct (new_uri_is_null run); [by left|].
  pose proof (run_callbacks_cases (callbacks run)
                {| triples := []; good_parse := true |}) as Hc.
  destruct (run_callbacks _ _); simpl; [done|]. right. by destruct Hc.
Qed.

Section WalkerFacts.
Context {World : Type}.
Variable raptor : string → World → raptor_run * World.
Variable func_ : string → list rdf_triple → World → result World.
Variable pred_ : rdf_triple → bool.

(** The lambda of the second [for_each] never throws: the cast is made
    only after [is_uri] has answered [true]. *)
Lemma add_to_fringe_spec (range : list rdf_triple) :
  ∀ st : walker_state World,
    add_to_fringe range st
    = Continue {| closed_list := closed_list st;
                  fringe := fringe st ++ references range;
                  world := world st;
                  trace := trace st ++ (ev_push <$> references range) |}.
Proof.
  induction range as [|t range IH]; intros st.
  - simpl. rewrite !app_nil_r. by destruct st.
  - rewrite references_cons. simpl.
    destruct (object t) as [u| |]; simpl; rewrite IH; simpl;
      by rewrite <- ?app_assoc.
Qed.

Lemma loop_body_summary (u : string) (st : walker_state World) :
  loop_body raptor func_ pred_ u st = summary raptor func_ pred_ u st.
Proof.
  unfold loop_body, summary, fetch. case_decide; [done|]. simpl.
  destruct (raptor u (world st)) as [run w].
  destruct (rdf_web_parser_call run) as [[[|] ts]|e]; simpl;
    [|by rewrite <- !app_assoc..].
  pose proof (remove_if_spec (λ t, negb (pred_ t)) ts) as Hview.
  destruct (remove_if _ ts) as [ts' new_end]. simpl in Hview.
  assert (take new_end ts' = List.filter pred_ ts) as ->.
  { rewrite Hview. apply List.filter_ext. intros t. apply negb_involutive. }
  unfold log. simpl. destruct (func_ u (List.filter pred_ ts) w) as [w'|e].
  - rewrite add_to_fringe_spec. simpl. by rewrite <- !app_assoc.
  - by rewrite <- !app_assoc.
Qed.

Lemma walk_loop_unfold (fuel : nat) (st : walker_state World) (u : string) (rest : list string) :
  fringe st = u :: rest →
  walk_loop raptor func_ pred_ (S fuel) st
  = match summary raptor func_ pred_ u (taken u rest st) with
    | Continue st' => walk_loop raptor func_ pred_ fuel st'
    | Abort e st' => Raised e st'
    end.
Proof. intros Hfr. simpl. rewrite Hfr. by rewrite loop_body_summary. Qed.

(** A property kept by every pass holds whenever the loop is looked at,
    however it ends. *)
Lemma walk_loop_ind (Inv Post : walker_state World → Prop) :
  (∀ st, Inv st → Post st) →
  (∀ st u rest, Inv st → fringe st = u :: rest →
     match summary raptor func_ pred_ u (taken u rest st) with
     | Continue st' => Inv st'
     | Abort _ st' => Post st'
     end) →
  ∀ fuel st, Inv st → Post (final (walk_loop raptor func_ pred_ fuel st)).
Proof.
  intros Hpost Hstep fuel. induction fuel as [|fuel IH]; intros st Hinv.
  - simpl. destruct (fringe st); simpl; by apply Hpost.
  - destruct (fringe st) as [|u rest] eqn:Hfr.
    + simpl. rewrite Hfr. simpl. by apply Hpost.
    + rewrite (walk_loop_unfold fuel st u rest Hfr).
      specialize (Hstep st u rest Hinv Hfr).
      destruct (summary raptor func_ pred_ u (taken u rest st)) as [st'|e st']; simpl; auto.
Qed.
(** The five ways through one pass: the uri is closed already; the parser
    throws; the parse is reported as failed; the visitor throws; the
    visitor returns. *)
Ltac pass_cases :=
  unfold summary, taken; simpl; case_decide; simpl;
  [| destruct (fetch _ _ _) as [[[[|] ?]|?] ?]; simpl;
     [ destruct (func_ _ _ _); simpl | .. ] ].

Ltac read_trace :=
  unfold visited, parsed in *;
  rewrite ?visits_app, ?parses_app, ?pushed_app, ?popped_app, ?fmap_app, ?omap_app;
  simpl;
  rewrite ?(proj1 (pushes_read _)), ?(proj1 (proj2 (pushes_read _))),
    ?(proj1 (proj2 (proj2 (pushes_read _)))), ?(proj2 (proj2 (proj2 (pushes_read _))));
  simpl; rewrite ?app_nil_r.

Lemma accounted_start (uri : string) (w : World) : accounted pred_ (start uri w).
Proof. repeat split; [constructor | by intros u ?%elem_of_nil]. Qed.

Lemma accounted_step (st : walker_state World) (u : string) (rest : list string) :
  accounted pred_ st →
  match summary raptor func_ pred_ u (taken u rest st) with
  | Continue st' | Abort _ st' => accounted pred_ st'
  end.
Proof.
  intros (Hnd & Hcl & Hvis). unfold accounted.
  assert (u ∉ closed_list st → NoDup ((parses (trace st)).*1 ++ [u])) as Hfresh.
  { intros Hu. apply NoDup_app. repeat split; [done| |apply NoDup_singleton].
    intros v Hv ->%list_elem_of_singleton. by apply Hu, Hcl. }
  pass_cases; read_trace.
  all: try (repeat split; [by auto | set_solver | by rewrite Hvis]).
Qed.
Lemma queued_start (uri : string) (w : World) : queued (start uri w).
Proof. split; [done | apply sublist_nil_l]. Qed.

Lemma queued_step (st : walker_state World) (u : string) (rest : list string) :
  queued st → fringe st = u :: rest →
  match summary raptor func_ pred_ u (taken u rest st) with
  | Continue st' | Abort _ st' => queued st'
  end.
Proof.
  intros (Hq & Hsub) Hfr. unfold queued. rewrite Hfr in Hq.
  assert (pushed (trace st) = (popped (trace st) ++ [u]) ++ rest) as Hq'
    by (by rewrite <- app_assoc).
  pass_cases; read_trace; rewrite ?Hq'; split;
    rewrite <- ?app_assoc; try done.
  all: try (by apply sublist_inserts_r).
  all: by apply sublist_app.
Qed.

Lemma ordered_start (uri : string) (w : World) :
  ordered pred_ uri (start uri w) ∧ at_top pred_ (start uri w).
Proof. repeat split. intros a Ha. simpl in Ha. by simplify_eq. Qed.

Lemma ordered_step (uri : string) (st : walker_state World) (u : string)
    (rest : list string) :
  ordered pred_ uri st ∧ at_top pred_ st →
  match summary raptor func_ pred_ u (taken u rest st) with
  | Continue st' => ordered pred_ uri st' ∧ at_top pred_ st'
  | Abort _ st' => ordered pred_ uri st'
  end.
Proof.
  intros ((Hhead & Hchain) & Htop). unfold ordered, at_top.
  pass_cases; rewrite <- ?app_assoc; simpl.
  all: repeat split; try (by apply head_app_Some).
  all: try (apply chain_app; [done| |by intros ? ? ? [= <-]; apply Htop]).
  all: rewrite ?chain_cons_cons.
  all: try (rewrite last_app; simpl).
  all: try (by repeat split).
  all: try (by intros ? [= <-]).
  - repeat split. by apply chain_pushes.
  - intros b Hb. eapply (last_pushes pred_ (ev_visit _ _)); [done|].
    destruct (last (_ :: _)) eqn:Hl; [by simplify_eq|]. by apply last_None in Hl.
Qed.
(** *** Running the loop by hand *)

Ltac one_pass u rest :=
  rewrite (walk_loop_unfold _ _ u rest) by reflexivity;
  unfold summary, taken; simpl.

Lemma finishes_closed cl u rest w tr vs :
  u ∈ cl →
  finishes raptor func_ pred_
    {| closed_list := cl; fringe := rest; world := w; trace := tr ++ [ev_pop u] |} vs →
  finishes raptor func_ pred_
    {| closed_list := cl; fringe := u :: rest; world := w; trace := tr |} vs.
Proof.
  intros Hu (fuel & st' & Hrun & Hvs). exists (S fuel), st'. split; [|done].
  one_pass u rest. by rewrite decide_True.
Qed.

Lemma finishes_visit cl u rest w tr ws vs :
  u ∉ cl → links_to raptor pred_ u ws → visitor_returns func_ →
  (∀ w' tr', visited tr' = visited tr ++ [u] →
     finishes raptor func_ pred_
       {| closed_list := {[u]} ∪ cl; fringe := rest ++ ws; world := w'; trace := tr' |}
       vs) →
  finishes raptor func_ pred_
    {| closed_list := cl; fringe := u :: rest; world := w; trace := tr |} vs.
Proof.
  intros Hu Hlinks Hret Hnext.
  destruct (Hlinks w) as (ts & w1 & Hfetch & Hrefs).
  destruct (Hret u (List.filter pred_ ts) w1) as (w2 & Hfunc).
  edestruct (Hnext w2) as (fuel & st' & Hrun & Hvs); last first.
  - exists (S fuel), st'. split; [|done].
    one_pass u rest. rewrite decide_False by done.
    rewrite Hfetch, Hfunc, Hrefs. exact Hrun.
  - by read_trace.
Qed.

Lemma finishes_drain cl w (fr : list string) :
  Forall (λ u, u ∈ cl) fr →
  ∀ tr, finishes raptor func_ pred_
          {| closed_list := cl; fringe := fr; world := w; trace := tr |} (visited tr).
Proof.
  induction fr as [|u fr IH]; intros Hall tr.
  - by exists 0, {| closed_list := cl; fringe := []; world := w; trace := tr |}.
  - apply Forall_cons in Hall as [Hu Hall]. apply finishes_closed; [done|].
    replace (visited tr) with (visited (tr ++ [ev_pop u])) by (by read_trace).
    by apply IH.
Qed.

(** *** Termination *)

Lemma walk_loop_terminates (U : gset string) :
  stays_in raptor pred_ U →
  ∀ n fr cl w tr,
    (size (U ∖ cl) ≤ n)%nat → Forall (λ u, u ∈ U) fr →
    ∃ fuel, terminated (walk_loop raptor func_ pred_ fuel
              {| closed_list := cl; fringe := fr; world := w; trace := tr |}).
Proof.
  intros Hstay n. induction n as [|n IHn]; intros fr; induction fr as [|u fr IHfr];
    intros cl w tr Hsize Hfr; try (by exists 0).
  all: apply Forall_cons in Hfr as [Hu Hfr].
  all: destruct (decide (u ∈ cl)) as [Hcl|Hcl].
  all: try (destruct (IHfr cl w (tr ++ [ev_pop u]) Hsize Hfr) as [fuel Hfuel];
            exists (S fuel); one_pass u fr; by rewrite decide_True).
  - assert (u ∈ U ∖ cl) as Hin by set_solver.
    assert (U ∖ cl ≡ ∅) as Hempty by (apply size_empty_inv; lia).
    set_solver.
  - assert (size (U ∖ ({[u]} ∪ cl)) < size (U ∖ cl))%nat as Hless
      by (apply subset_size; set_solver).
    destruct (fetch raptor u w) as [r w1] eqn:Hfetch.
    assert (∀ ts, r = Return (true, ts) →
                  Forall (λ v, v ∈ U) (fr ++ references (List.filter pred_ ts))) as Hrefs.
    { intros ts ->. apply Forall_app. split; [done|]. apply Forall_forall.
      intros v Hv. by eapply (Hstay u w ts w1). }
    assert (∀ fr' w' tr', Forall (λ v, v ∈ U) fr' →
              ∃ fuel, terminated (walk_loop raptor func_ pred_ fuel
                {| closed_list := {[u]} ∪ cl; fringe := fr'; world := w'; trace := tr' |}))
      as Hnext by (intros; apply IHn; [lia | done]).
    destruct r as [[[|] ts]|e].
    + destruct (func_ u (List.filter pred_ ts) w1) as [w2|e] eqn:Hfunc.
      * edestruct (Hnext (fr ++ references (List.filter pred_ ts)) w2) as [fuel Hfuel];
          [by apply Hrefs|].
        exists (S fuel). one_pass u fr. rewrite decide_False by done.
        rewrite Hfetch, Hfunc. exact Hfuel.
      * exists 1. one_pass u fr. rewrite decide_False by done.
        by rewrite Hfetch, Hfunc.
    + edestruct (Hnext fr w1) as [fuel Hfuel]; [done|].
      exists (S fuel). one_pass u fr. rewrite decide_False by done.
      rewrite Hfetch. exact Hfuel.
    + exists 1. one_pass u fr. rewrite decide_False by done.
      by rewrite Hfetch.
Qed.
(** *** What holds of every walk *)

Lemma walk_accounted (fuel : nat) (uri : string) (w : World) :
  accounted pred_ (final (walk raptor func_ pred_ fuel uri w)).
Proof.
  apply (walk_loop_ind (accounted pred_) (accounted pred_)); [done| |apply accounted_start].
  intros st u rest Hst _. pose proof (accounted_step st u rest Hst) as Hstep.
  by destruct (summary _ _ _ _ _).
Qed.

Lemma walk_queued (fuel : nat) (uri : string) (w : World) :
  queued (final (walk raptor func_ pred_ fuel uri w)).
Proof.
  apply (walk_loop_ind queued queued); [done| |apply queued_start].
  intros st u rest Hst Hfr. pose proof (queued_step st u rest Hst Hfr) as Hstep.
  by destruct (summary _ _ _ _ _).
Qed.

Lemma walk_ordered (fuel : nat) (uri : string) (w : World) :
  ordered pred_ uri (final (walk raptor func_ pred_ fuel uri w)).
Proof.
  apply (walk_loop_ind (λ st, ordered pred_ uri st ∧ at_top pred_ st) (ordered pred_ uri));
    [by intros st [? _] | |apply ordered_start].
  intros st u rest Hst _. apply (ordered_step uri st u rest Hst).
Qed.

Lemma visited_parsed (st : walker_state World) :
  accounted pred_ st → visited (trace st) `sublist_of` parsed (trace st).
Proof. intros (_ & _ & Hvis). unfold visited. rewrite Hvis. apply delivered_fst. Qed.

Lemma failed_not_visited (st : walker_state World) (u : string) (ts : list rdf_triple) :
  accounted pred_ st →
  (u, Return (false, ts)) ∈ parses (trace st) → u ∉ visited (trace st).
Proof.
  intros (Hnd & _ & Hvis) Hfail Hin. unfold visited in Hin. rewrite Hvis in Hin.
  apply delivered_good in Hin as [ts' Hgood].
  by pose proof (fst_functional _ _ _ _ Hnd Hfail Hgood).
Qed.

(** C1. In every walk, cut off at any point or run to its end, no uri is
    handed to the visitor twice; and a uri found in the closed list when
    it is taken off the fringe is dropped: the pass changes neither the
    closed list nor the world, and records no parse and no visit. *)
Theorem each_uri_visited_at_most_once (fuel : nat) (uri : string) (w : World) :
  NoDup (visited (trace (final (walk raptor func_ pred_ fuel uri w))))
  ∧ ∀ (st : walker_state World) (u : string) (rest : list string) (n : nat),
      fringe st = u :: rest → u ∈ closed_list st →
      walk_loop raptor func_ pred_ (S n) st
      = walk_loop raptor func_ pred_ n
          {| closed_list := closed_list st; fringe := rest; world := world st;
             trace := trace st ++ [ev_pop u] |}.
Proof.
  split.
  - pose proof (walk_accounted fuel uri w) as Hacc.
    eapply sublist_NoDup; [apply Hacc | by apply visited_parsed].
  - intros st u rest n Hfr Hu. rewrite (walk_loop_unfold n st u rest Hfr).
    unfold summary, taken. simpl. by rewrite decide_True.
Qed.

(** C3. The calls made on the visitor are, in order, the parses that
    succeeded, each with its uri and with exactly the triples of that parse
    that the predicate admits, in the order of the parse; and the range
    that [remove_if] leaves is that filtered list. *)
Theorem visitor_receives_filtered_triples (fuel : nat) (uri : string) (w : World) :
  visits (trace (final (walk raptor func_ pred_ fuel uri w)))
  = omap (delivered pred_) (parses (trace (final (walk raptor func_ pred_ fuel uri w))))
  ∧ ∀ ts : list rdf_triple,
      take (remove_if (λ t, negb (pred_ t)) ts).2 (remove_if (λ t, negb (pred_ t)) ts).1
      = List.filter pred_ ts.
Proof.
  split; [apply walk_accounted|]. intros ts. rewrite remove_if_spec.
  apply List.filter_ext. intros t. apply negb_involutive.
Qed.

(** C6. In every walk each parse comes directly after the insertion of its
    uri into the closed list; no uri is parsed twice; every parsed uri,
    whatever the parse gave, is in the closed list; and a uri whose parse
    was reported as failed is never handed to the visitor. *)
Theorem closed_before_fetch (fuel : nat) (uri : string) (w : World) :
  (∀ i u r,
     trace (final (walk raptor func_ pred_ fuel uri w)) !! i = Some (ev_parse u r) →
     ∃ j, i = S j
          ∧ trace (final (walk raptor func_ pred_ fuel uri w)) !! j = Some (ev_insert u))
  ∧ NoDup (parsed (trace (final (walk raptor func_ pred_ fuel uri w))))
  ∧ (∀ u, u ∈ parsed (trace (final (walk raptor func_ pred_ fuel uri w))) →
          u ∈ closed_list (final (walk raptor func_ pred_ fuel uri w)))
  ∧ (∀ u ts,
       (u, Return (false, ts)) ∈ parses (trace (final (walk raptor func_ pred_ fuel uri w))) →
       u ∉ visited (trace (final (walk raptor func_ pred_ fuel uri w)))).
Proof.
  pose proof (walk_accounted fuel uri w) as Hacc.
  pose proof (walk_ordered fuel uri w) as [Hhead Hchain].
  set (st := final (walk raptor func_ pred_ fuel uri w)) in *.
  split; [|split; [apply Hacc | split; [apply Hacc | by intros; eapply failed_not_visited]]].
  intros [|j] u r Hi.
  - rewrite <- head_lookup, Hhead in Hi. by simplify_eq.
  - exists j. split; [done|].
    destruct (lookup_lt_is_Some_2 (trace st) j) as [a Ha];
      [apply lookup_lt_Some in Hi; lia|].
    pose proof (chain_lookup _ _ Hchain j a _ Ha Hi) as Hfol.
    destruct a as [| | |? [[[|] ?]|?]|]; simpl in Hfol; try done. by subst.
Qed.

(** C4, as the sources have it. When the parse of [X] is reported as
    failed, [X] is never handed to the visitor, the pass ends there (what
    follows in the trace, if anything, is the next pop: nothing is pushed
    for [X]), [X] is in the closed list, and [X] is not parsed again. A
    later reference to [X] does push it again; that copy is dropped when
    it is popped. *)
Theorem failed_fetch_is_absorbed (fuel : nat) (uri : string) (w : World)
    (i : nat) (X : string) (ts : list rdf_triple) :
  trace (final (walk raptor func_ pred_ fuel uri w)) !! i
    = Some (ev_parse X (Return (false, ts))) →
  (X ∉ visited (trace (final (walk raptor func_ pred_ fuel uri w))))
  ∧ (trace (final (walk raptor func_ pred_ fuel uri w)) !! S i = None
     ∨ ∃ v, trace (final (walk raptor func_ pred_ fuel uri w)) !! S i = Some (ev_pop v))
  ∧ X ∈ closed_list (final (walk raptor func_ pred_ fuel uri w))
  ∧ ∀ j r, trace (final (walk raptor func_ pred_ fuel uri w)) !! j = Some (ev_parse X r) →
           j = i.
Proof.
  pose proof (walk_accounted fuel uri w) as Hacc.
  pose proof (walk_ordered fuel uri w) as [Hhead Hchain].
  set (st := final (walk raptor func_ pred_ fuel uri w)) in *.
  intros Hi. pose proof (parsed_lookup _ _ _ _ Hi) as Hin.
  split; [by eapply failed_not_visited|]. split; [|split].
  - destruct (trace st !! S i) as [b|] eqn:Hb; [right|by left].
    pose proof (chain_lookup _ _ Hchain i _ b Hi Hb) as Hfol.
    destruct b; simpl in Hfol; try done. by eexists.
  - destruct Hacc as (_ & Hcl & _). apply Hcl.
    change X with ((X, @Return (bool * list rdf_triple) (false, ts)).1).
    by apply list_elem_of_fmap_2.
  - intros j r Hj. destruct Hacc as (Hnd & _). by eapply parsed_once.
Qed.

Lemma walk_first_pop (fuel : nat) (uri : string) (w : World) :
  closed_list (final (walk raptor func_ pred_ fuel uri w))
  = list_to_set (popped (trace (final (walk raptor func_ pred_ fuel uri w))))
  ∧ parsed (trace (final (walk raptor func_ pred_ fuel uri w)))
    = first_time ∅ (popped (trace (final (walk raptor func_ pred_ fuel uri w))))
  ∧ ∀ j v,
      trace (final (walk raptor func_ pred_ fuel uri w)) !! j = Some (ev_pop v) →
      trace (final (walk raptor func_ pred_ fuel uri w)) !! S j = Some (ev_insert v) →
      v ∉ popped (take j (trace (final (walk raptor func_ pred_ fuel uri w)))).
Proof.
  apply (walk_loop_ind
           (λ st, closed_list st = list_to_set (popped (trace st))
                  ∧ parsed (trace st) = first_time ∅ (popped (trace st))
                  ∧ ∀ j v, trace st !! j = Some (ev_pop v) →
                           trace st !! S j = Some (ev_insert v) →
                           v ∉ popped (take j (trace st)))
           (λ st, closed_list st = list_to_set (popped (trace st))
                  ∧ parsed (trace st) = first_time ∅ (popped (trace st))
                  ∧ ∀ j v, trace st !! j = Some (ev_pop v) →
                           trace st !! S j = Some (ev_insert v) →
                           v ∉ popped (take j (trace st))));
    [done| |by repeat split].
  intros st u rest (Hcl & Hfirst & Hpos) _.
  assert (u ∉ closed_list st → u ∉ popped (trace st)) as Hfresh
    by (rewrite Hcl; set_solver).
  pass_cases; rewrite <- ?app_assoc; simpl; (split; [|split]).
  all: try (by apply first_pop_extend;
            [ done
            | repeat (apply Forall_cons; split; [done|]);
              try apply Forall_nil; try (apply Forall_fmap, Forall_true; done)
            | intros; auto ]).
  all: read_trace; rewrite ?list_to_set_app_L, ?first_time_snoc; simpl;
    rewrite <- ?Hfirst, <- ?Hcl; try set_solver.
  all: rewrite union_empty_l_L; case_decide; rewrite ?app_nil_r; try done;
    set_solver.
Qed.

(** C7. The fringe is a queue: what has been pushed is what has been
    popped followed by what is waiting, so uris are popped in the order in
    which they were pushed. A uri is tried when it is popped for the first
    time and at no other time: the parses are the pops with the repeated
    ones left out, the visits are the successful ones among them, and each
    visit stands in the very pass that popped its uri, which had not been
    popped before. On the diamond A → B, C; B → D; C → D (with D referring
    to nothing new) the walk ends and the visits are A, B, C, D in that
    order. *)
Theorem discovery_order_bfs :
  (∀ fuel uri w,
     pushed (trace (final (walk raptor func_ pred_ fuel uri w)))
     = popped (trace (final (walk raptor func_ pred_ fuel uri w)))
       ++ fringe (final (walk raptor func_ pred_ fuel uri w))
     ∧ visited (trace (final (walk raptor func_ pred_ fuel uri w)))
       `sublist_of` popped (trace (final (walk raptor func_ pred_ fuel uri w)))
     ∧ parsed (trace (final (walk raptor func_ pred_ fuel uri w)))
       = first_time ∅ (popped (trace (final (walk raptor func_ pred_ fuel uri w))))
     ∧ visits (trace (final (walk raptor func_ pred_ fuel uri w)))
       = omap (delivered pred_)
           (parses (trace (final (walk raptor func_ pred_ fuel uri w))))
     ∧ ∀ i u view,
         trace (final (walk raptor func_ pred_ fuel uri w)) !! i
           = Some (ev_visit u view) →
         ∃ j, i = S (S (S j))
              ∧ trace (final (walk raptor func_ pred_ fuel uri w)) !! j
                = Some (ev_pop u)
              ∧ u ∉ popped (take j (trace (final (walk raptor func_ pred_ fuel uri w)))))
  ∧ (∀ A B C D ds w,
       NoDup [A; B; C; D] →
       links_to raptor pred_ A [B; C] → links_to raptor pred_ B [D] →
       links_to raptor pred_ C [D] → links_to raptor pred_ D ds →
       ds ⊆ [A; B; C; D] → visitor_returns func_ →
       ∃ fuel st, walk raptor func_ pred_ fuel A w = Finished st
                  ∧ visited (trace st) = [A; B; C; D]).
Proof.
  split.
  { intros fuel uri w.
    pose proof (walk_queued fuel uri w) as [Hq Hsub].
    pose proof (walk_first_pop fuel uri w) as (_ & Hfirst & Hpos).
    pose proof (walk_accounted fuel uri w) as (_ & _ & Hvis).
    pose proof (walk_ordered fuel uri w) as [Hhead Hchain].
    set (st := final (walk raptor func_ pred_ fuel uri w)) in *.
    do 4 (split; [done|]).
    intros i u view Hi.
    destruct (chain_pred _ _ _ _ _ Hhead Hchain Hi)
      as [[_ ?]|(i1 & a1 & -> & H1 & Hf1)]; [done|].
    destruct a1 as [| | |u1 [[[|] ts]|?]|]; simpl in Hf1; try done.
    destruct Hf1 as [-> _].
    destruct (chain_pred _ _ _ _ _ Hhead Hchain H1)
      as [[_ ?]|(i2 & a2 & -> & H2 & Hf2)]; [done|].
    destruct a2 as [| |u2|? [[[|] ?]|?]|]; simpl in Hf2; try done. subst u2.
    destruct (chain_pred _ _ _ _ _ Hhead Hchain H2)
      as [[_ ?]|(i3 & a3 & -> & H3 & Hf3)]; [done|].
    destruct a3 as [|u3| |? [[[|] ?]|?]|]; simpl in Hf3; try done. subst u3.
    exists i3. split; [done|]. split; [done|]. by apply Hpos. }
  intros A B C D ds w Hnd HA HB HC HD Hds Hret.
  rewrite !NoDup_cons, !not_elem_of_cons in Hnd.
  destruct Hnd as ((? & ? & ? & _) & (? & ? & _) & (? & _) & _).
  change (finishes raptor func_ pred_ (start A w) [A; B; C; D]). unfold start.
  eapply finishes_visit; [set_solver | exact HA | done|]. intros w1 tr1 Hv1. simpl.
  eapply finishes_visit; [set_solver | exact HB | done|]. intros w2 tr2 Hv2. simpl.
  eapply finishes_visit; [set_solver | exact HC | done|]. intros w3 tr3 Hv3. simpl.
  eapply finishes_visit; [set_solver | exact HD | done|]. intros w4 tr4 Hv4. simpl.
  replace [A; B; C; D] with (visited tr4) by (by rewrite Hv4, Hv3, Hv2, Hv1).
  apply finishes_drain. apply Forall_cons. split; [set_solver|].
  apply Forall_forall. intros v Hv%Hds. set_solver.
Qed.

(** C2. When the uris reachable from the start through admitted references
    lie in a finite set, the loop ends after finitely many passes (by
    running out of uris or by an exception). On the cycle A → B → A the
    walk ends with an empty fringe, having visited A and then B, each
    once. *)
Theorem walk_terminates :
  (∀ (U : gset string) uri w,
     uri ∈ U → stays_in raptor pred_ U →
     ∃ fuel, terminated (walk raptor func_ pred_ fuel uri w))
  ∧ (∀ A B w,
       A ≠ B → links_to raptor pred_ A [B] → links_to raptor pred_ B [A] →
       visitor_returns func_ →
       ∃ fuel st, walk raptor func_ pred_ fuel A w = Finished st
                  ∧ visited (trace st) = [A; B]).
Proof.
  split.
  - intros U uri w Huri Hstay.
    apply (walk_loop_terminates U Hstay (size U)); [|by repeat constructor].
    apply subseteq_size. set_solver.
  - intros A B w Hne HA HB Hret.
    change (finishes raptor func_ pred_ (start A w) [A; B]). unfold start.
    eapply finishes_visit; [set_solver | exact HA | done|]. intros w1 tr1 Hv1. simpl.
    eapply finishes_visit; [set_solver | exact HB | done|]. intros w2 tr2 Hv2. simpl.
    replace [A; B] with (visited tr2) by (by rewrite Hv2, Hv1).
    apply finishes_drain. apply Forall_cons. split; [set_solver | constructor].
Qed.
(** *** Further facts about the walk *)

Lemma walk_loop_outcome_ind (Inv : walker_state World → Prop)
    (Q : outcome World → Prop) :
  (∀ st, Inv st → fringe st = [] → Q (Finished st)) →
  (∀ st, Inv st → Q (Running st)) →
  (∀ st u rest, Inv st → fringe st = u :: rest →
     match summary raptor func_ pred_ u (taken u rest st) with
     | Continue st' => Inv st'
     | Abort e st' => Q (Raised e st')
     end) →
  ∀ fuel st, Inv st → Q (walk_loop raptor func_ pred_ fuel st).
Proof.
  intros Hfin Hrun Hstep fuel. induction fuel as [|fuel IH]; intros st Hinv.
  - simpl. destruct (fringe st) eqn:Hfr; [by apply Hfin | by apply Hrun].
  - destruct (fringe st) as [|u rest] eqn:Hfr.
    + simpl. rewrite Hfr. by apply Hfin.
    + rewrite (walk_loop_unfold fuel st u rest Hfr).
      specialize (Hstep st u rest Hinv Hfr).
      destruct (summary raptor func_ pred_ u (taken u rest st)) as [st'|e st']; auto.
Qed.

Lemma walk_closed (fuel : nat) (uri : string) (w : World) :
  closed_list (final (walk raptor func_ pred_ fuel uri w))
  = list_to_set (parsed (trace (final (walk raptor func_ pred_ fuel uri w))))
  ∧ closed_list (final (walk raptor func_ pred_ fuel uri w))
    = list_to_set (popped (trace (final (walk raptor func_ pred_ fuel uri w)))).
Proof.
  apply (walk_loop_ind
           (λ st, closed_list st = list_to_set (parsed (trace st))
                  ∧ closed_list st = list_to_set (popped (trace st)))
           (λ st, closed_list st = list_to_set (parsed (trace st))
                  ∧ closed_list st = list_to_set (popped (trace st))));
    [done| |by split].
  intros st u rest [Hparsed Hpopped] _.
  pass_cases; read_trace; rewrite ?list_to_set_app_L; simpl;
    rewrite <- ?Hparsed, <- ?Hpopped; split; set_solver.
Qed.

(** X8. At every moment of a walk the closed list holds exactly the uris
    whose parse has been attempted, and these are exactly the uris taken
    off the fringe so far. *)
Theorem closed_list_is_what_was_tried (fuel : nat) (uri : string) (w : World) :
  closed_list (final (walk raptor func_ pred_ fuel uri w))
  = list_to_set (parsed (trace (final (walk raptor func_ pred_ fuel uri w))))
  ∧ closed_list (final (walk raptor func_ pred_ fuel uri w))
    = list_to_set (popped (trace (final (walk raptor func_ pred_ fuel uri w))))
  ∧ length (parsed (trace (final (walk raptor func_ pred_ fuel uri w))))
    = size (closed_list (final (walk raptor func_ pred_ fuel uri w))).
Proof.
  destruct (walk_closed fuel uri w) as [Hparsed Hpopped].
  split; [done|]. split; [done|]. rewrite Hparsed.
  symmetry. apply size_list_to_set, (walk_accounted fuel uri w).
Qed.

(** X9. When the loop ends because the fringe is empty, everything that was
    ever pushed has been taken off and tried: the closed list is the set of
    all uris discovered, the start uri among them. *)
Theorem finished_walk_tried_everything (fuel : nat) (uri : string) (w : World) :
  match walk raptor func_ pred_ fuel uri w with
  | Finished st =>
      fringe st = []
      ∧ pushed (trace st) = popped (trace st)
      ∧ closed_list st = list_to_set (pushed (trace st))
      ∧ uri ∈ closed_list st
  | _ => True
  end.
Proof.
  pose proof (walk_queued fuel uri w) as [Hq _].
  pose proof (walk_closed fuel uri w) as [_ Hpopped].
  pose proof (walk_ordered fuel uri w) as [Hhead _].
  assert (match walk raptor func_ pred_ fuel uri w with
          | Finished st => fringe st = []
          | _ => True
          end) as Hempty.
  { apply (walk_loop_outcome_ind (λ _, True)
             (λ o, match o with Finished st => fringe st = [] | _ => True end));
      [done | done | | done].
    intros st u rest _ _. by destruct (summary _ _ _ _ _). }
  destruct (walk raptor func_ pred_ fuel uri w) as [st| |]; [|done..].
  simpl in *. rewrite Hempty, app_nil_r in Hq.
  split; [done|]. split; [done|]. split; [by rewrite Hq|].
  rewrite Hpopped, <- Hq. apply elem_of_list_to_set.
  destruct (trace st) as [|e tr]; [done|]. simpl in Hhead. simplify_eq.
  apply elem_of_cons. by left.
Qed.

Lemma walk_pushed (fuel : nat) (uri : string) (w : World) :
  match walk raptor func_ pred_ fuel uri w with
  | Raised _ st =>
      pushed (trace st)
      `prefix_of` uri :: concat (references <$> (visits (trace st)).*2)
  | Finished st | Running st =>
      pushed (trace st) = uri :: concat (references <$> (visits (trace st)).*2)
  end.
Proof.
  apply (walk_loop_outcome_ind
           (λ st, pushed (trace st)
                  = uri :: concat (references <$> (visits (trace st)).*2))
           (λ o, match o with
                 | Raised _ st =>
                     pushed (trace st)
                     `prefix_of` uri :: concat (references <$> (visits (trace st)).*2)
                 | Finished st | Running st =>
                     pushed (trace st)
                     = uri :: concat (references <$> (visits (trace st)).*2)
                 end));
    [done | done | | done].
  intros st u rest Hinv _.
  pass_cases; read_trace; rewrite ?fmap_app, ?concat_app; simpl;
    rewrite ?app_nil_r, ?Hinv; try done.
  rewrite app_comm_cons. by apply prefix_app_r.
Qed.

(** X10. Nothing reaches the fringe but the start uri and the uris named by
    the objects of triples handed to the visitor. While the walk runs and
    when it ends, what has been pushed is the start uri followed by the
    references of the visits, visit after visit and in the order of the
    triples. When the parser throws, the same holds. When the visitor
    throws, the references of that last visit are not pushed: what has
    been pushed is the start uri followed by the references of the visits
    before it. *)
Theorem pushed_uris_come_from_visits (fuel : nat) (uri : string) (w : World) :
  match walk raptor func_ pred_ fuel uri w with
  | Raised e st =>
      (∃ u, last (trace st) = Some (ev_parse u (Throw e))
            ∧ pushed (trace st)
              = uri :: concat (references <$> (visits (trace st)).*2))
      ∨ (∃ u view vs,
           last (trace st) = Some (ev_visit u view)
           ∧ visits (trace st) = vs ++ [(u, view)]
           ∧ pushed (trace st) = uri :: concat (references <$> vs.*2))
  | Finished st | Running st =>
      pushed (trace st) = uri :: concat (references <$> (visits (trace st)).*2)
  end.
Proof.
  apply (walk_loop_outcome_ind
           (λ st, pushed (trace st)
                  = uri :: concat (references <$> (visits (trace st)).*2))
           (λ o, match o with
                 | Raised e st =>
                     (∃ u, last (trace st) = Some (ev_parse u (Throw e))
                           ∧ pushed (trace st)
                             = uri :: concat (references <$> (visits (trace st)).*2))
                     ∨ (∃ u view vs,
                          last (trace st) = Some (ev_visit u view)
                          ∧ visits (trace st) = vs ++ [(u, view)]
                          ∧ pushed (trace st) = uri :: concat (references <$> vs.*2))
                 | Finished st | Running st =>
                     pushed (trace st)
                     = uri :: concat (references <$> (visits (trace st)).*2)
                 end));
    [done | done | | done].
  intros st u rest Hinv _. unfold summary, taken. simpl. case_decide.
  - simpl. read_trace. by rewrite Hinv.
  - destruct (fetch raptor u (world st)) as [[[[|] ts]|e] w1]; simpl.
    + destruct (func_ u (List.filter pred_ ts) w1) as [w2|e]; simpl.
      * read_trace. rewrite concat_app. simpl.
        by rewrite app_nil_r, Hinv.
      * right. exists u, (List.filter pred_ ts), (visits (trace st)).
        split; [by rewrite last_snoc|]. split; read_trace; by rewrite ?Hinv.
    + read_trace. by rewrite Hinv.
    + left. exists u. split.
      * by rewrite (last_app _ [ev_insert u; ev_parse u (Throw e)]).
      * read_trace. by rewrite Hinv.
Qed.

(** X12. A start uri whose parse is reported as failed: the walk is over
    after one pass, the visitor has not been called, the closed list holds
    the start uri alone, and the world is as the parser left it. *)
Theorem failed_start_ends_the_walk (n : nat) (uri : string) (w : World) :
  match fetch raptor uri w with
  | (Return (false, ts), w') =>
      walk raptor func_ pred_ (S n) uri w
      = Finished {| closed_list := {[uri]} ∪ ∅; fringe := []; world := w';
                    trace := [ev_push uri; ev_pop uri; ev_insert uri;
                              ev_parse uri (Return (false, ts))] |}
      ∧ visits (trace (final (walk raptor func_ pred_ (S n) uri w))) = []
  | _ => True
  end.
Proof.
  destruct (fetch raptor uri w) as [[[[|] ts]|e] w'] eqn:Hfetch; try done.
  assert (walk raptor func_ pred_ (S n) uri w
          = Finished {| closed_list := {[uri]} ∪ ∅; fringe := []; world := w';
                        trace := [ev_push uri; ev_pop uri; ev_insert uri;
                                  ev_parse uri (Return (false, ts))] |}) as ->.
  { unfold walk, start. one_pass uri (@nil string).
    rewrite decide_False by set_solver. rewrite Hfetch. by destruct n. }
  done.
Qed.

(** What a visitor that always returns does to a part of the world that
    the network leaves alone. *)
Lemma walk_projection {S : Type} (π : World → S)
    (g : string → list rdf_triple → S → S) :
  (∀ u w, π (raptor u w).2 = π w) →
  (∀ u view w, ∃ w', func_ u view w = Return w' ∧ π w' = g u view (π w)) →
  ∀ fuel uri w,
    π (world (final (walk raptor func_ pred_ fuel uri w)))
    = foldl (λ s v, g v.1 v.2 s) (π w)
        (visits (trace (final (walk raptor func_ pred_ fuel uri w)))).
Proof.
  intros Hnet Hfunc fuel uri w.
  apply (walk_loop_ind
           (λ st, π (world st) = foldl (λ s v, g v.1 v.2 s) (π w) (visits (trace st)))
           (λ st, π (world st) = foldl (λ s v, g v.1 v.2 s) (π w) (visits (trace st))));
    [done| |done].
  intros st u rest Hinv _. unfold summary, taken. simpl. case_decide.
  - simpl. by read_trace.
  - unfold fetch. pose proof (Hnet u (world st)) as Hkeep.
    destruct (raptor u (world st)) as [run w1]. simpl in Hkeep.
    destruct (rdf_web_parser_call run) as [[[|] ts]|e]; simpl.
    + destruct (Hfunc u (List.filter pred_ ts) w1) as (w2 & -> & Hw2). simpl.
      read_trace. rewrite foldl_app. simpl. by rewrite <- Hinv, <- Hkeep.
    + read_trace. by rewrite Hkeep.
    + read_trace. by rewrite Hkeep.
Qed.

(** X19. When the start uri lies in a finite set that the admitted
    references never leave, the closed list stays inside that set, and the
    number of documents the walker asks for is at most the size of the
    set, however long the walk is let run. *)
Theorem parses_are_bounded (U : gset string) (fuel : nat) (uri : string) (w : World) :
  uri ∈ U → stays_in raptor pred_ U →
  closed_list (final (walk raptor func_ pred_ fuel uri w)) ⊆ U
  ∧ (length (parsed (trace (final (walk raptor func_ pred_ fuel uri w)))) ≤ size U)%nat.
Proof.
  intros Huri Hstay.
  assert (closed_list (final (walk raptor func_ pred_ fuel uri w)) ⊆ U) as Hsub.
  { apply (walk_loop_ind
             (λ st, closed_list st ⊆ U ∧ Forall (λ v, v ∈ U) (fringe st))
             (λ st, closed_list st ⊆ U)); [by intros st [? _]| |].
    - intros st u rest [Hcl Hfr] Heq. rewrite Heq in Hfr.
      apply Forall_cons in Hfr as [Hu Hrest].
      unfold summary, taken. simpl. case_decide; [done|].
      destruct (fetch raptor u (world st)) as [[[[|] ts]|e] w1] eqn:Hfetch; simpl.
      + destruct (func_ u (List.filter pred_ ts) w1); simpl; [|set_solver].
        split; [set_solver|]. apply Forall_app. split; [done|].
        apply Forall_forall. intros v Hv. by eapply (Hstay u (world st) ts w1).
      + split; [set_solver | done].
      + set_solver.
    - split; [set_solver | by repeat constructor]. }
  split; [done|].
  destruct (walk_closed fuel uri w) as [Hparsed _].
  rewrite <- (size_list_to_set (C := gset string)) by apply (walk_accounted fuel uri w).
  rewrite <- Hparsed. by apply subseteq_size.
Qed.

End WalkerFacts.

(** ** The sample webs *)

Lemma store_uris_returns : visitor_returns Sample.store_uris.
Proof. intros u view w. by eexists. Qed.

Lemma diamond_links :
  links_to (Sample.web Sample.diamond) Sample.accept_all "A" ["B"; "C"]
  ∧ links_to (Sample.web Sample.diamond) Sample.accept_all "B" ["D"]
  ∧ links_to (Sample.web Sample.diamond) Sample.accept_all "C" ["D"]
  ∧ links_to (Sample.web Sample.diamond) Sample.accept_all "D" [].
Proof. repeat split; intros w; by eexists _, _. Qed.

Lemma cycle_links :
  links_to (Sample.web Sample.cycle) Sample.accept_all "A" ["B"]
  ∧ links_to (Sample.web Sample.cycle) Sample.accept_all "B" ["A"].
Proof. repeat split; intros w; by eexists _, _. Qed.

Lemma cycle_stays_in :
  stays_in (Sample.web Sample.cycle) Sample.accept_all ({["A"]} ∪ {["B"]}).
Proof.
  intros u w ts w' Hu Hfetch v Hv.
  apply elem_of_union in Hu as [->%elem_of_singleton| ->%elem_of_singleton];
    vm_compute in Hfetch; injection Hfetch as <- _; vm_compute in Hv;
    apply list_elem_of_singleton in Hv as ->; set_solver.
Qed.

Lemma each_uri_visited_at_most_once_witness :
  NoDup (visited (trace (final
    (walk (Sample.web Sample.diamond) Sample.store_uris Sample.accept_all 10 "A" []))))
  ∧ walk_loop (Sample.web Sample.diamond) Sample.store_uris Sample.accept_all 1
      {| closed_list := {["D"]}; fringe := ["D"]; world := []; trace := [] |}
    = walk_loop (Sample.web Sample.diamond) Sample.store_uris Sample.accept_all 0
        {| closed_list := {["D"]}; fringe := []; world := [];
           trace := [] ++ [ev_pop "D"] |}.
Proof.
  destruct (each_uri_visited_at_most_once (Sample.web Sample.diamond)
              Sample.store_uris Sample.accept_all 10 "A" []) as [Hnd Hdrop].
  split; [exact Hnd|].
  assert ("D" ∈ ({["D"]} : gset string)) as Hin by (by apply elem_of_singleton).
  exact (Hdrop {| closed_list := {["D"]}; fringe := ["D"]; world := []; trace := [] |}
           "D" [] 0 eq_refl Hin).
Defined.

Lemma walk_terminates_witness :
  (∃ fuel, terminated
     (walk (Sample.web Sample.cycle) Sample.store_uris Sample.accept_all fuel "A" []))
  ∧ ∃ fuel st,
      walk (Sample.web Sample.cycle) Sample.store_uris Sample.accept_all fuel "A" []
      = Finished st
      ∧ visited (trace st) = ["A"; "B"].
Proof.
  destruct (walk_terminates (Sample.web Sample.cycle) Sample.store_uris
              Sample.accept_all) as [Hgen Hcyc].
  split.
  - apply (Hgen ({["A"]} ∪ {["B"]})); [|apply cycle_stays_in].
    apply elem_of_union_l. by apply elem_of_singleton.
  - apply Hcyc; [discriminate | apply cycle_links | apply cycle_links
                 | apply store_uris_returns].
Defined.

Lemma closed_before_fetch_witness :
  (∃ j, 9 = S j
        ∧ trace (final (walk (Sample.web Sample.broken_link) Sample.store_uris
                          Sample.accept_all 10 "A" [])) !! j
          = Some (ev_insert "X"))
  ∧ "X" ∈ closed_list (final (walk (Sample.web Sample.broken_link) Sample.store_uris
                                Sample.accept_all 10 "A" []))
  ∧ "X" ∉ visited (trace (final (walk (Sample.web Sample.broken_link) Sample.store_uris
                                   Sample.accept_all 10 "A" []))).
Proof.
  destruct (closed_before_fetch (Sample.web Sample.broken_link) Sample.store_uris
              Sample.accept_all 10 "A" []) as (Hbefore & _ & Hclosed & Hfailed).
  split; [|split].
  - apply (Hbefore 9 "X" (Return (false, []))). reflexivity.
  - apply Hclosed. apply (list_elem_of_lookup_2 _ 1). reflexivity.
  - apply (Hfailed "X" []). apply (parsed_lookup _ 9). reflexivity.
Defined.

Lemma failed_fetch_is_absorbed_witness :
  ("X" ∉ visited (trace (final (walk (Sample.web Sample.broken_link) Sample.store_uris
                                  Sample.accept_all 10 "A" []))))
  ∧ (trace (final (walk (Sample.web Sample.broken_link) Sample.store_uris
                     Sample.accept_all 10 "A" [])) !! 10 = None
     ∨ ∃ v, trace (final (walk (Sample.web Sample.broken_link) Sample.store_uris
                            Sample.accept_all 10 "A" [])) !! 10 = Some (ev_pop v))
  ∧ "X" ∈ closed_list (final (walk (Sample.web Sample.broken_link) Sample.store_uris
                                Sample.accept_all 10 "A" []))
  ∧ ∀ j r, trace (final (walk (Sample.web Sample.broken_link) Sample.store_uris
                           Sample.accept_all 10 "A" [])) !! j = Some (ev_parse "X" r) →
           j = 9.
Proof.
  apply (failed_fetch_is_absorbed (Sample.web Sample.broken_link) Sample.store_uris
           Sample.accept_all 10 "A" [] 9 "X" []).
  reflexivity.
Defined.

(** C4, as the claim has it, fails. In the web A → X, B; B → X, where X
    cannot be read, the parse of X fails (event 9) and the visit of B then
    pushes X onto the fringe again (event 14). *)
Lemma failed_uri_is_pushed_again :
  ¬ never_pushed_after_failure
      (trace (final (walk (Sample.web Sample.broken_link) Sample.store_uris
                       Sample.accept_all 10 "A" []))).
Proof.
  intros Hnever. apply (Hnever 9 14 "X" []); [reflexivity | lia | reflexivity].
Qed.

Lemma discovery_order_bfs_witness :
  (pushed (trace (final (walk (Sample.web Sample.diamond) Sample.store_uris
                           Sample.accept_all 3 "A" [])))
   = popped (trace (final (walk (Sample.web Sample.diamond) Sample.store_uris
                             Sample.accept_all 3 "A" [])))
     ++ fringe (final (walk (Sample.web Sample.diamond) Sample.store_uris
                         Sample.accept_all 3 "A" []))
   ∧ visited (trace (final (walk (Sample.web Sample.diamond) Sample.store_uris
                              Sample.accept_all 3 "A" [])))
     `sublist_of` popped (trace (final (walk (Sample.web Sample.diamond)
                                          Sample.store_uris Sample.accept_all 3 "A" []))))
  ∧ (∃ j, 20 = S (S (S j))
          ∧ trace (final (walk (Sample.web Sample.diamond) Sample.store_uris
                            Sample.accept_all 10 "A" [])) !! j
            = Some (ev_pop "D")
          ∧ "D" ∉ popped (take j (trace (final
                     (walk (Sample.web Sample.diamond) Sample.store_uris
                        Sample.accept_all 10 "A" [])))))
  ∧ ∃ fuel st,
      walk (Sample.web Sample.diamond) Sample.store_uris Sample.accept_all fuel "A" []
      = Finished st
      ∧ visited (trace st) = ["A"; "B"; "C"; "D"].
Proof.
  destruct (discovery_order_bfs (Sample.web Sample.diamond) Sample.store_uris
              Sample.accept_all) as [Hqueue Hdiamond].
  split; [|split].
  - destruct (Hqueue 3 "A" []) as (Hq & Hsub & _). by split.
  - destruct (Hqueue 10 "A" []) as (_ & _ & _ & _ & Hpos).
    apply (Hpos 20 "D" []). reflexivity.
  - apply (Hdiamond "A" "B" "C" "D" [] []);
      [ | apply diamond_links.. | apply list_subseteq_nil | apply store_uris_returns ].
    apply (bool_decide_unpack _). vm_compute. exact I.
Defined.

(** A start uri that cannot be read: the walk ends at once and the visitor
    is never called. *)
Example unreadable_start :
  ∃ st, walk (Sample.web Sample.nowhere) Sample.store_uris Sample.accept_all 1 "X" []
        = Finished st
        ∧ visits (trace st) = [] ∧ world st = [].
Proof. by eexists. Qed.

(** With [links_only] the visitor sees the link of a mixed document and
    not its labels. *)
Example mixed_document_filtered :
  ∃ ts, rdf_web_parser_call Sample.mixed = Return (true, ts)
        ∧ length ts = 3
        ∧ references
            (take (remove_if (λ t, negb (Sample.links_only t)) ts).2
                  (remove_if (λ t, negb (Sample.links_only t)) ts).1) = ["B"]
        ∧ length (take (remove_if (λ t, negb (Sample.links_only t)) ts).2
                       (remove_if (λ t, negb (Sample.links_only t)) ts).1) = 1.
Proof. by eexists. Qed.

(** * Further properties *)

(** ** Strings and printing *)

Lemma string_app_cons (x : Ascii.ascii) (a b : string) :
  String x a +:+ b = String x (a +:+ b).
Proof. reflexivity. Qed.

Lemma string_app_assoc (a b c : string) : (a +:+ b) +:+ c = a +:+ (b +:+ c).
Proof. induction a as [|x a IH]; [done|]. rewrite !string_app_cons. by f_equal. Qed.

Lemma string_app_nil_r (a : string) : a +:+ "" = a.
Proof. induction a as [|x a IH]; [done|]. rewrite string_app_cons. by f_equal. Qed.

Lemma string_length_app (a b : string) :
  String.length (a +:+ b) = String.length a + String.length b.
Proof.
  induction a as [|x a IH]; [done|]. rewrite string_app_cons. simpl. by f_equal.
Qed.

Lemma to_std_string_into_spec (str : unsigned_string) :
  ∀ temp, to_std_string_into str temp = temp +:+ String.string_of_list_byte str.
Proof.
  induction str as [|c str IH]; intros temp; simpl.
  - by rewrite string_app_nil_r.
  - by rewrite IH, string_app_assoc.
Qed.

Lemma to_std_string_spec (str : unsigned_string) :
  to_std_string str = String.string_of_list_byte str.
Proof. unfold to_std_string. by rewrite to_std_string_into_spec. Qed.

Lemma to_std_string_length (str : unsigned_string) :
  String.length (to_std_string str) = length str.
Proof.
  unfold to_std_string.
  assert (∀ temp, String.length (to_std_string_into str temp)
                  = String.length temp + length str) as H; [|by rewrite H].
  induction str as [|c str IH]; intros temp; simpl; [lia|].
  rewrite IH, string_length_app. simpl. lia.
Qed.

(** X1. [to_std_string] loses nothing: it is inverse to reading a string
    as bytes, on both sides, and keeps the length. Two different
    [unsigned_string]s are therefore never confused as uris. *)
Theorem to_std_string_round_trip :
  (∀ s : string, to_std_string (String.list_byte_of_string s) = s)
  ∧ (∀ str : unsigned_string, String.list_byte_of_string (to_std_string str) = str)
  ∧ (∀ str : unsigned_string, String.length (to_std_string str) = length str)
  ∧ (∀ str1 str2 : unsigned_string,
       to_std_string str1 = to_std_string str2 ↔ str1 = str2).
Proof.
  assert (∀ str, String.list_byte_of_string (to_std_string str) = str) as Hinv.
  { intros str. rewrite to_std_string_spec.
    apply String.list_byte_of_string_of_list_byte. }
  repeat split.
  - intros s. rewrite to_std_string_spec. apply String.string_of_list_byte_of_string.
  - done.
  - apply to_std_string_length.
  - intros Heq. by rewrite <- (Hinv str1), <- (Hinv str2), Heq.
  - by intros ->.
Qed.

Lemma print_rdf_term_text (os : string) (t : rdf_term) :
  print_rdf_term os t = os +:+ to_std_string (term_text t).
Proof. by destruct t. Qed.

Lemma print_rdf_triple_app (os : string) (t : rdf_triple) :
  print_rdf_triple os t = os +:+ print_rdf_triple "" t.
Proof.
  unfold print_rdf_triple. rewrite !print_rdf_term_text. simpl.
  by rewrite !string_app_assoc.
Qed.

(** X2. Printing a triple (on a stream with no field width set) appends to
    what the stream holds the text of the subject, a space, the text of the
    predicate, a space and the text of the object, in this order and
    nothing else: no brackets, no quotes, and for a literal no datatype.
    The text of a uri is its string, that of a literal its value, that of
    a blank node its identifier. *)
Theorem print_rdf_triple_text (os : string) (t : rdf_triple) :
  print_rdf_triple os t
  = os +:+ to_std_string (term_text (subject t)) +:+ " "
       +:+ to_std_string (term_text (predicate t)) +:+ " "
       +:+ to_std_string (term_text (object t))
  ∧ (∀ (u : rdf_uri) (l : rdf_literal) (b : rdf_blank),
       print_rdf_term os (term_uri u) = os +:+ to_std_string (uri_ u)
       ∧ print_rdf_term os (term_literal l) = os +:+ to_std_string (literal_ l)
       ∧ print_rdf_term os (term_blank b) = os +:+ to_std_string (str_ b))
  ∧ print_rdf_triple os t = os +:+ print_rdf_triple "" t
  ∧ String.length (print_rdf_triple "" t)
    = length (term_text (subject t)) + length (term_text (predicate t))
      + length (term_text (object t)) + 2
  ∧ ∀ (v : unsigned_string) (d1 d2 : rdf_uri),
      print_rdf_triple os
        {| subject := subject t; predicate := predicate t;
           object := term_literal {| literal_ := v; literal_uri_ := d1 |} |}
      = print_rdf_triple os
          {| subject := subject t; predicate := predicate t;
             object := term_literal {| literal_ := v; literal_uri_ := d2 |} |}.
Proof.
  split; [|split; [done|split; [apply print_rdf_triple_app|]]].
  - unfold print_rdf_triple. rewrite !print_rdf_term_text.
    by rewrite !string_app_assoc.
  - unfold print_rdf_triple. rewrite !print_rdf_term_text. repeat split.
    rewrite !string_length_app, !to_std_string_length. simpl. lia.
Qed.

(** ** The parsers *)

(** X3. The web parser throws in exactly two situations: [raptor_new_uri]
    gives a null pointer (["Failed to initialize raptor uri"], before any
    callback is looked at), or a statement arrives with a term of unknown
    type (["bad rdf data"]). In every other case it returns, whatever is
    logged. *)
Theorem web_parser_raises_exactly (run : raptor_run) :
  match rdf_web_parser_call run with
  | Return _ =>
      new_uri_is_null run = false ∧ Forall well_typed (statements (callbacks run))
  | Throw e =>
      (new_uri_is_null run = true
       ∧ e = domain_error "Failed to initialize raptor uri")
      ∨ (new_uri_is_null run = false
         ∧ ¬ Forall well_typed (statements (callbacks run))
         ∧ e = domain_error "bad rdf data")
  end.
Proof.
  unfold rdf_web_parser_call. destruct (new_uri_is_null run); [by left|].
  pose proof (run_callbacks_cases (callbacks run)
                {| triples := []; good_parse := true |}) as Hc.
  destruct (run_callbacks _ _) as [data|e]; simpl; [done|].
  right. destruct Hc as [-> Hnot]. by repeat split.
Qed.

(** X4. When the web parser returns, the flag is [true] if nothing was
    logged and otherwise tells whether the last message logged is neither
    an error nor a fatal error: messages before the last have no say. The
    caller receives one triple for each statement. *)
Theorem web_parser_flag_is_last_message (run : raptor_run) :
  match rdf_web_parser_call run with
  | Return (good, ts) =>
      good = match last (log_messages (callbacks run)) with
             | Some m => negb (is_error m)
             | None => true
             end
      ∧ length ts = length (statements (callbacks run))
  | Throw _ => True
  end.
Proof.
  pose proof (rdf_web_parser_call_cases run) as Hr.
  destruct (rdf_web_parser_call run) as [[good ts]|e] eqn:Hcall; [|done].
  destruct Hr as [Hnull Hwt]. unfold rdf_web_parser_call in Hcall.
  rewrite Hnull in Hcall.
  destruct (run_callbacks_well_typed (callbacks run)
              {| triples := []; good_parse := true |} Hwt) as (ts' & Hrun & Hts).
  rewrite Hrun in Hcall. simpl in Hcall. injection Hcall as <- <-.
  split; [done|]. symmetry. by eapply Forall2_length.
Qed.

Lemma web_run_callbacks_spec (cbs : list raptor_callback) :
  ∀ data c,
    (web_run_callbacks cbs data c).1 = run_callbacks cbs data
    ∧ cout (web_run_callbacks cbs data c).2 = cout c
    ∧ match (web_run_callbacks cbs data c).1 with
      | Return _ =>
          cerr (web_run_callbacks cbs data c).2
          = cerr c +:+ message_lines (List.filter is_error (log_messages cbs))
      | Throw _ => True
      end.
Proof.
  induction cbs as [|[statement|m] cbs IH]; intros data c.
  - simpl. by rewrite string_app_nil_r.
  - change (statements (on_statement statement :: cbs))
      with (statement :: statements cbs).
    change (run_callbacks (on_statement statement :: cbs) data)
      with (handle_statement data statement ≫= run_callbacks cbs).
    simpl. destruct (handle_statement data statement) as [data'|e]; [|done].
    apply IH.
  - change (run_callbacks (on_log_message m :: cbs) data)
      with (run_callbacks cbs (handle_log_messages data m)).
    change (log_messages (on_log_message m :: cbs)) with (m :: log_messages cbs).
    cbn [web_run_callbacks]. unfold web_handle_log_messages.
    rewrite handle_log_messages_flag.
    destruct (IH (handle_log_messages data m)
                (if negb (is_error m) then c
                 else write_cerr (text m +:+ newline) c)) as (H1 & H2 & H3).
    split; [done|]. split; [by rewrite H2; destruct (is_error m)|].
    destruct (web_run_callbacks cbs _ _).1; [|done]. rewrite H3.
    cbn [List.filter]. destruct (is_error m); simpl; [|done].
    unfold message_lines. simpl. by rewrite !string_app_assoc.
Qed.

(** X5. The web parser with its console: the value is the one of the call
    without console, nothing is written to [std::cout], and when it returns
    [std::cerr] has gained the texts of the error and fatal messages, one
    line each, in the order in which they were logged; warnings are not
    shown. *)
Theorem web_parser_shows_errors_only (run : raptor_run) (c : console) :
  (rdf_web_parser_console run c).1 = rdf_web_parser_call run
  ∧ cout (rdf_web_parser_console run c).2 = cout c
  ∧ match rdf_web_parser_call run with
    | Return _ =>
        cerr (rdf_web_parser_console run c).2
        = cerr c +:+ message_lines
                       (List.filter is_error (log_messages (callbacks run)))
    | Throw _ => True
    end.
Proof.
  unfold rdf_web_parser_console, rdf_web_parser_call.
  destruct (new_uri_is_null run); [done|].
  destruct (web_run_callbacks_spec (callbacks run)
              {| triples := []; good_parse := true |} c) as (H1 & H2 & H3).
  destruct (web_run_callbacks _ _ _) as [[data|e] c'] eqn:Hweb; simpl in *;
    rewrite <- H1; simpl; done.
Qed.

Lemma file_run_callbacks_spec (cbs : list raptor_callback) :
  ∀ data c,
    (file_run_callbacks cbs data c).1 = run_callbacks cbs data
    ∧ match (file_run_callbacks cbs data c).1 with
      | Return _ =>
          cout (file_run_callbacks cbs data c).2
          = cout c +:+ repeat_line (length (statements cbs)) "statement handler"
          ∧ cerr (file_run_callbacks cbs data c).2
            = cerr c +:+ message_lines (log_messages cbs)
      | Throw _ => True
      end.
Proof.
  induction cbs as [|[statement|m] cbs IH]; intros data c.
  - simpl. by rewrite !string_app_nil_r.
  - change (statements (on_statement statement :: cbs))
      with (statement :: statements cbs).
    change (run_callbacks (on_statement statement :: cbs) data)
      with (handle_statement data statement ≫= run_callbacks cbs).
    simpl. destruct (handle_statement data statement) as [data'|e]; [|done].
    destruct (IH data' (write_cout ("statement handler" +:+ newline) c))
      as (H1 & H2).
    split; [done|]. destruct (file_run_callbacks cbs _ _).1; [|done].
    destruct H2 as [-> ->]. simpl. by rewrite !string_app_assoc.
  - change (run_callbacks (on_log_message m :: cbs) data)
      with (run_callbacks cbs (handle_log_messages data m)).
    change (log_messages (on_log_message m :: cbs)) with (m :: log_messages cbs).
    simpl.
    destruct (IH (handle_log_messages data m) (write_cerr (text m +:+ newline) c))
      as (H1 & H2).
    split; [done|]. destruct (file_run_callbacks cbs _ _).1; [|done].
    destruct H2 as [-> ->]. simpl. unfold message_lines. simpl.
    by rewrite !string_app_assoc.
Qed.

(** X6. The file parser has a value only when [std::fopen] succeeds. Then
    it gives, for the same callbacks, the flag, the triples or the
    exception that the web parser gives; and when it returns it has written
    to [std::cout] the line "top", one line "statement handler" for each
    statement, the status of the parse and the line "bottom", and to
    [std::cerr] the text of every message, warnings included. *)
Theorem file_parser_agrees_with_web_parser (run : file_run) (c : console) :
  match rdf_parser_call run c with
  | None => stream_is_null run = true
  | Some (r, c') =>
      stream_is_null run = false
      ∧ r = rdf_web_parser_call
              {| new_uri_is_null := false; callbacks := file_callbacks run |}
      ∧ match r with
        | Return _ =>
            cout c'
            = cout c +:+ "top" +:+ newline
              +:+ repeat_line (length (statements (file_callbacks run)))
                    "statement handler"
              +:+ pretty (parse_status run) +:+ newline +:+ "bottom" +:+ newline
            ∧ cerr c' = cerr c +:+ message_lines (log_messages (file_callbacks run))
        | Throw _ => True
        end
  end.
Proof.
  unfold rdf_parser_call, rdf_web_parser_call.
  destruct (stream_is_null run); [done|]. simpl.
  destruct (file_run_callbacks_spec (file_callbacks run)
              {| triples := []; good_parse := true |}
              (write_cout ("top" +:+ newline) c)) as (H1 & H2).
  destruct (file_run_callbacks _ _ _) as [[data|e] c1]; simpl in *;
    rewrite <- H1; simpl; [|done].
  destruct H2 as [-> ->]. repeat split. by rewrite !string_app_assoc.
Qed.

(** ** The aggregate as a composition *)

(** X7. An aggregate is the sequential composition of its components: the
    empty aggregate returns at once and changes nothing; an aggregate with
    [f] in front runs [f] and, if [f] returns, the rest on the world [f]
    left, so an aggregate of one component is that component; an aggregate
    of two lists runs the first list and, if that returns, the second on
    the world it left; and an aggregate of aggregates does what the flat
    aggregate does. *)
Theorem aggregate_composes {World : Type} (fs gs : list (@visitor World))
    (str : string) (range : list rdf_triple) (w : World) :
  aggregate [] str range w = Return w
  ∧ (∀ f : @visitor World,
       aggregate (f :: fs) str range w = f str range w ≫= aggregate fs str range)
  ∧ (∀ f : @visitor World, aggregate [f] str range w = f str range w)
  ∧ aggregate (fs ++ gs) str range w
    = aggregate fs str range w ≫= aggregate gs str range
  ∧ aggregate [aggregate fs; aggregate gs] str range w
    = aggregate (fs ++ gs) str range w.
Proof.
  split; [done|]. split; [intros f; apply aggregate_cons|].
  split; [intros f; rewrite aggregate_cons; by destruct (f str range w)|].
  split; [apply aggregate_app|].
  rewrite aggregate_app, !aggregate_cons.
  destruct (aggregate fs str range w) as [w'|e]; [|done]. simpl.
  rewrite aggregate_cons. by destruct (aggregate gs str range w').
Qed.

(** ** The default predicate *)

Lemma filter_true_const_pred (ts : list rdf_triple) :
  List.filter true_const_pred ts = ts.
Proof. induction ts as [|t ts IH]; simpl; [done | by f_equal]. Qed.

(** X13. A walker made without a predicate filters nothing: the visitor is
    called once for each successful parse, in order, with all the triples
    of that parse. *)
Theorem default_predicate_delivers_everything {World : Type}
    (raptor : string → World → raptor_run * World)
    (func_ : string → list rdf_triple → World → result World)
    (fuel : nat) (uri : string) (w : World) :
  visits (trace (final (walk raptor func_ true_const_pred fuel uri w)))
  = omap delivered_whole
      (parses (trace (final (walk raptor func_ true_const_pred fuel uri w)))).
Proof.
  destruct (walk_accounted raptor func_ true_const_pred fuel uri w) as (_ & _ & ->).
  apply list_omap_ext, Forall2_same_length_lookup_2; [done|].
  intros i p p' Hp Hp'. simplify_eq. destruct p as [u [[[|] ts]|e]]; simpl; try done.
  by rewrite filter_true_const_pred.
Qed.

(** ** The ready-made visitors on a walk *)

Lemma foldl_snoc_fst {A B : Type} (l : list (A * B)) :
  ∀ s0 : list A, foldl (λ s v, s ++ [v.1]) s0 l = s0 ++ l.*1.
Proof.
  induction l as [|v l IH]; intros s0; simpl; [by rewrite app_nil_r|].
  by rewrite IH, <- app_assoc.
Qed.

Lemma foldl_count {A : Type} (l : list A) :
  ∀ s0 : Z, (0 ≤ s0 < 2 ^ 64)%Z →
    foldl (λ s _, (s + 1) mod 2 ^ 64)%Z s0 l
    = ((s0 + Z.of_nat (length l)) mod 2 ^ 64)%Z.
Proof.
  induction l as [|v l IH]; intros s0 Hs0.
  - simpl. rewrite Z.add_0_r. symmetry. by apply Z.mod_small.
  - cbn [foldl]. rewrite IH by (apply Z.mod_pos_bound; lia).
    rewrite Zplus_mod_idemp_l. f_equal. simpl length. lia.
Qed.

Lemma foldl_store {A : Type} (q : rdf_triple → bool) (l : list (A * list rdf_triple)) :
  ∀ s0 : list rdf_triple,
    foldl (λ s v, s ++ List.filter q v.2) s0 l
    = s0 ++ concat (List.filter q <$> l.*2).
Proof.
  induction l as [|v l IH]; intros s0; simpl; [by rewrite app_nil_r|].
  by rewrite IH, <- app_assoc.
Qed.

(** X14. With [store_uris] as visitor, and a network that leaves the list
    alone, the list gains exactly the uris of the documents that were
    read successfully, in the order of the visits and each once. *)
Theorem store_uris_collects_the_visited {Net : Type}
    (raptor : string → Visitors.heap Net → raptor_run * Visitors.heap Net)
    (pred_ : rdf_triple → bool) (fuel : nat) (uri : string) (h : Visitors.heap Net) :
  (∀ u h', Visitors.uris_ (raptor u h').2 = Visitors.uris_ h') →
  Visitors.uris_ (world (final (walk raptor Visitors.store_uris pred_ fuel uri h)))
  = Visitors.uris_ h
    ++ visited (trace (final (walk raptor Visitors.store_uris pred_ fuel uri h)))
  ∧ NoDup (visited (trace (final (walk raptor Visitors.store_uris pred_ fuel uri h)))).
Proof.
  intros Hnet. split.
  - rewrite (walk_projection raptor Visitors.store_uris pred_ Visitors.uris_
               (λ u _ s, s ++ [u]) Hnet); [apply foldl_snoc_fst|].
    intros u view w. by eexists.
  - pose proof (walk_accounted raptor Visitors.store_uris pred_ fuel uri h) as Hacc.
    eapply sublist_NoDup; [apply Hacc | by apply (visited_parsed pred_)].
Qed.

(** X15. With [count_nodes] as visitor, a counter that holds a 64-bit
    value, and a network that leaves it alone, the counter ends at its
    first value plus the number of visits, modulo [2^64]. *)
Theorem count_nodes_counts_the_visits {Net : Type}
    (raptor : string → Visitors.heap Net → raptor_run * Visitors.heap Net)
    (pred_ : rdf_triple → bool) (fuel : nat) (uri : string) (h : Visitors.heap Net) :
  (∀ u h', Visitors.size_ (raptor u h').2 = Visitors.size_ h') →
  (0 ≤ Visitors.size_ h < 2 ^ 64)%Z →
  Visitors.size_ (world (final (walk raptor Visitors.count_nodes pred_ fuel uri h)))
  = ((Visitors.size_ h
      + Z.of_nat (length (visits (trace (final
                    (walk raptor Visitors.count_nodes pred_ fuel uri h))))))
     mod 2 ^ 64)%Z.
Proof.
  intros Hnet Hsize.
  rewrite (walk_projection raptor Visitors.count_nodes pred_ Visitors.size_
             (λ _ _ s, (s + 1) mod 2 ^ 64)%Z Hnet); [by apply foldl_count|].
  intros u view w. by eexists.
Qed.

(** X16. With [store_triples_if q] as visitor, and a network that leaves the
    store alone, the store gains, parse after parse, the triples that pass
    both the walker's predicate and [q], in the order of the parse; with
    [store_triples] it gains those that pass the walker's predicate. *)
Theorem store_triples_keeps_the_admitted {Net : Type}
    (raptor : string → Visitors.heap Net → raptor_run * Visitors.heap Net)
    (pred_ q : rdf_triple → bool) (fuel : nat) (uri : string)
    (h : Visitors.heap Net) :
  (∀ u h', Visitors.triple_store_ (raptor u h').2 = Visitors.triple_store_ h') →
  Visitors.triple_store_
    (world (final (walk raptor (Visitors.store_triples_if q) pred_ fuel uri h)))
  = Visitors.triple_store_ h
    ++ concat (List.filter q
               <$> (omap (delivered pred_)
                      (parses (trace (final
                         (walk raptor (Visitors.store_triples_if q) pred_
                            fuel uri h))))).*2)
  ∧ Visitors.triple_store_
      (world (final (walk raptor Visitors.store_triples pred_ fuel uri h)))
    = Visitors.triple_store_ h
      ++ concat (omap (delivered pred_)
                   (parses (trace (final
                      (walk raptor Visitors.store_triples pred_ fuel uri h))))).*2.
Proof.
  intros Hnet. split.
  - rewrite (walk_projection raptor (Visitors.store_triples_if q) pred_
               Visitors.triple_store_ (λ _ view s, s ++ List.filter q view) Hnet).
    + rewrite foldl_store.
      by destruct (walk_accounted raptor (Visitors.store_triples_if q) pred_
                     fuel uri h) as (_ & _ & ->).
    + intros u view w. by eexists.
  - rewrite (walk_projection raptor Visitors.store_triples pred_
               Visitors.triple_store_
               (λ _ view s, s ++ List.filter true_const_pred view) Hnet).
    + rewrite foldl_store.
      destruct (walk_accounted raptor Visitors.store_triples pred_ fuel uri h)
        as (_ & _ & ->).
      f_equal. f_equal. rewrite <- (list_fmap_id (_.*2)) at 2.
      apply list_fmap_ext. intros i ts _. apply filter_true_const_pred.
    + intros u view w. eexists. split; [done|]. simpl.
      by rewrite filter_true_const_pred.
Qed.

Lemma foldl_string {A : Type} (f : A → string) (l : list A) :
  ∀ s0 : string,
    foldl (λ s v, s +:+ f v) s0 l = s0 +:+ foldr (λ v s, f v +:+ s) "" l.
Proof.
  induction l as [|v l IH]; intros s0; simpl; [by rewrite string_app_nil_r|].
  by rewrite IH, string_app_assoc.
Qed.

Lemma print_lines_app (range : list rdf_triple) :
  ∀ os, Visitors.print_lines os range = os +:+ Visitors.print_lines "" range.
Proof.
  induction range as [|t range IH]; intros os; simpl; [by rewrite string_app_nil_r|].
  rewrite IH, (IH (_ +:+ newline)), (print_rdf_triple_app os).
  by rewrite !string_app_assoc.
Qed.

(** X17. The printing visitors on a walk, with a network that leaves the
    two streams alone. [print_uris] adds to [std::cout] one line for each
    visit, the uri; [print_triples] adds for each visit the triples handed
    over, one line each, and then the separator line, also for a visit
    without triples; [output_triples] adds to its stream the lines of the
    triples and no separator. *)
Theorem printing_visitors_write_the_visits {Net : Type}
    (raptor : string → Visitors.heap Net → raptor_run * Visitors.heap Net)
    (pred_ : rdf_triple → bool) (fuel : nat) (uri : string) (h : Visitors.heap Net) :
  (∀ u h', Visitors.stdout (raptor u h').2 = Visitors.stdout h'
           ∧ Visitors.os_ (raptor u h').2 = Visitors.os_ h') →
  Visitors.stdout (world (final (walk raptor Visitors.print_uris pred_ fuel uri h)))
  = Visitors.stdout h
    +:+ foldr (λ v s, (v.1 +:+ newline) +:+ s) ""
          (visits (trace (final (walk raptor Visitors.print_uris pred_ fuel uri h))))
  ∧ Visitors.stdout
      (world (final (walk raptor Visitors.print_triples pred_ fuel uri h)))
    = Visitors.stdout h
      +:+ foldr (λ v s, (Visitors.print_lines "" v.2
                         +:+ Visitors.separator +:+ newline) +:+ s) ""
            (visits (trace (final
               (walk raptor Visitors.print_triples pred_ fuel uri h))))
  ∧ Visitors.os_
      (world (final (walk raptor Visitors.output_triples pred_ fuel uri h)))
    = Visitors.os_ h
      +:+ foldr (λ v s, Visitors.print_lines "" v.2 +:+ s) ""
            (visits (trace (final
               (walk raptor Visitors.output_triples pred_ fuel uri h)))).
Proof.
  intros Hnet. split; [|split].
  - rewrite (walk_projection raptor Visitors.print_uris pred_ Visitors.stdout
               (λ u _ s, s +:+ (u +:+ newline)) (λ u h', proj1 (Hnet u h'))).
    + apply (foldl_string (λ v, v.1 +:+ newline)).
    + intros u view w. by eexists.
  - rewrite (walk_projection raptor Visitors.print_triples pred_ Visitors.stdout
               (λ _ view s, s +:+ (Visitors.print_lines "" view
                                   +:+ Visitors.separator +:+ newline))
               (λ u h', proj1 (Hnet u h'))).
    + apply (foldl_string
               (λ v, Visitors.print_lines "" v.2 +:+ Visitors.separator +:+ newline)).
    + intros u view w. eexists. split; [done|]. simpl.
      by rewrite print_lines_app, !string_app_assoc.
  - rewrite (walk_projection raptor Visitors.output_triples pred_ Visitors.os_
               (λ _ view s, s +:+ Visitors.print_lines "" view)
               (λ u h', proj2 (Hnet u h'))).
    + apply (foldl_string (λ v, Visitors.print_lines "" v.2)).
    + intros u view w. eexists. split; [done|]. simpl. apply print_lines_app.
Qed.

(** X18. [store_uris] and [count_nodes] run together in one aggregate: the
    aggregate never throws, the list gains the visited uris, and the
    counter gains their number (modulo [2^64]). *)
Theorem aggregate_of_store_and_count {Net : Type}
    (raptor : string → Visitors.heap Net → raptor_run * Visitors.heap Net)
    (pred_ : rdf_triple → bool) (fuel : nat) (uri : string) (h : Visitors.heap Net) :
  (∀ u h', Visitors.uris_ (raptor u h').2 = Visitors.uris_ h'
           ∧ Visitors.size_ (raptor u h').2 = Visitors.size_ h') →
  (0 ≤ Visitors.size_ h < 2 ^ 64)%Z →
  Visitors.uris_
    (world (final (walk raptor (aggregate [Visitors.store_uris; Visitors.count_nodes])
                     pred_ fuel uri h)))
  = Visitors.uris_ h
    ++ visited (trace (final
         (walk raptor (aggregate [Visitors.store_uris; Visitors.count_nodes])
            pred_ fuel uri h)))
  ∧ Visitors.size_
      (world (final (walk raptor (aggregate [Visitors.store_uris; Visitors.count_nodes])
                       pred_ fuel uri h)))
    = ((Visitors.size_ h
        + Z.of_nat (length (visited (trace (final
            (walk raptor (aggregate [Visitors.store_uris; Visitors.count_nodes])
               pred_ fuel uri h))))))
       mod 2 ^ 64)%Z.
Proof.
  intros Hnet Hsize. split.
  - rewrite (walk_projection raptor _ pred_ Visitors.uris_
               (λ u _ s, s ++ [u]) (λ u h', proj1 (Hnet u h')));
      [apply foldl_snoc_fst|].
    intros u view w. by eexists.
  - rewrite (walk_projection raptor _ pred_ Visitors.size_
               (λ _ _ s, (s + 1) mod 2 ^ 64)%Z (λ u h', proj2 (Hnet u h'))).
    + unfold visited. rewrite length_fmap. by apply foldl_count.
    + intros u view w. by eexists.
Qed.

(** ** The visitors on the sample webs *)

Lemma store_uris_collects_the_visited_witness :
  Visitors.uris_
    (world (final (walk (Visitors.web Sample.diamond) Visitors.store_uris
                     Sample.accept_all 10 "A" Visitors.empty_heap)))
  = Visitors.uris_ Visitors.empty_heap
    ++ visited (trace (final (walk (Visitors.web Sample.diamond) Visitors.store_uris
                                Sample.accept_all 10 "A" Visitors.empty_heap)))
  ∧ NoDup (visited (trace (final (walk (Visitors.web Sample.diamond)
                                    Visitors.store_uris Sample.accept_all 10 "A"
                                    Visitors.empty_heap)))).
Proof.
  apply (store_uris_collects_the_visited (Visitors.web Sample.diamond)
           Sample.accept_all 10 "A" Visitors.empty_heap).
  intros u h'. reflexivity.
Defined.

Lemma count_nodes_counts_the_visits_witness :
  Visitors.size_
    (world (final (walk (Visitors.web Sample.diamond) Visitors.count_nodes
                     Sample.accept_all 10 "A" Visitors.empty_heap)))
  = ((Visitors.size_ Visitors.empty_heap
      + Z.of_nat (length (visits (trace (final
          (walk (Visitors.web Sample.diamond) Visitors.count_nodes
             Sample.accept_all 10 "A" Visitors.empty_heap))))))
     mod 2 ^ 64)%Z.
Proof.
  apply (count_nodes_counts_the_visits (Visitors.web Sample.diamond)
           Sample.accept_all 10 "A" Visitors.empty_heap).
  - intros u h'. reflexivity.
  - simpl. lia.
Defined.

Lemma store_triples_keeps_the_admitted_witness :
  Visitors.triple_store_
    (world (final (walk (Visitors.web Sample.broken_link)
                     (Visitors.store_triples_if Sample.links_only)
                     Sample.accept_all 10 "A" Visitors.empty_heap)))
  = Visitors.triple_store_ Visitors.empty_heap
    ++ concat (List.filter Sample.links_only
               <$> (omap (delivered Sample.accept_all)
                      (parses (trace (final
                         (walk (Visitors.web Sample.broken_link)
                            (Visitors.store_triples_if Sample.links_only)
                            Sample.accept_all 10 "A" Visitors.empty_heap))))).*2)
  ∧ Visitors.triple_store_
      (world (final (walk (Visitors.web Sample.broken_link) Visitors.store_triples
                       Sample.accept_all 10 "A" Visitors.empty_heap)))
    = Visitors.triple_store_ Visitors.empty_heap
      ++ concat (omap (delivered Sample.accept_all)
                   (parses (trace (final
                      (walk (Visitors.web Sample.broken_link) Visitors.store_triples
                         Sample.accept_all 10 "A" Visitors.empty_heap))))).*2.
Proof.
  apply (store_triples_keeps_the_admitted (Visitors.web Sample.broken_link)
           Sample.accept_all Sample.links_only 10 "A" Visitors.empty_heap).
  intros u h'. reflexivity.
Defined.

Lemma printing_visitors_write_the_visits_witness :
  Visitors.stdout
    (world (final (walk (Visitors.web Sample.cycle) Visitors.print_uris
                     Sample.accept_all 10 "A" Visitors.empty_heap)))
  = Visitors.stdout Visitors.empty_heap
    +:+ foldr (λ v s, (v.1 +:+ newline) +:+ s) ""
          (visits (trace (final (walk (Visitors.web Sample.cycle) Visitors.print_uris
                                   Sample.accept_all 10 "A" Visitors.empty_heap)))).
Proof.
  refine (proj1 (printing_visitors_write_the_visits (Visitors.web Sample.cycle)
                   Sample.accept_all 10 "A" Visitors.empty_heap _)).
  intros u h'. split; reflexivity.
Defined.

Lemma aggregate_of_store_and_count_witness :
  Visitors.size_
    (world (final (walk (Visitors.web Sample.diamond)
                     (aggregate [Visitors.store_uris; Visitors.count_nodes])
                     Sample.accept_all 10 "A" Visitors.empty_heap)))
  = ((Visitors.size_ Visitors.empty_heap
      + Z.of_nat (length (visited (trace (final
          (walk (Visitors.web Sample.diamond)
             (aggregate [Visitors.store_uris; Visitors.count_nodes])
             Sample.accept_all 10 "A" Visitors.empty_heap))))))
     mod 2 ^ 64)%Z.
Proof.
  refine (proj2 (aggregate_of_store_and_count (Visitors.web Sample.diamond)
                   Sample.accept_all 10 "A" Visitors.empty_heap _ _)).
  - intros u h'. split; reflexivity.
  - simpl. lia.
Defined.

Lemma parses_are_bounded_witness :
  closed_list (final (walk (Sample.web Sample.cycle) Sample.store_uris
                        Sample.accept_all 10 "A" []))
  ⊆ {["A"]} ∪ {["B"]}
  ∧ (length (parsed (trace (final (walk (Sample.web Sample.cycle) Sample.store_uris
                                     Sample.accept_all 10 "A" []))))
     ≤ size ({["A"]} ∪ {["B"]} : gset string))%nat.
Proof.
  apply (parses_are_bounded (Sample.web Sample.cycle) Sample.store_uris
           Sample.accept_all ({["A"]} ∪ {["B"]}) 10 "A" []);
    [|apply cycle_stays_in].
  apply elem_of_union_l. by apply elem_of_singleton.
Defined.

(** ** A predicate that admits nothing *)

(** X20. With a predicate that rejects every triple the walk never leaves
    the start uri: at most one document is asked for, and a visit, if
    there is one, hands over no triples. *)
Theorem rejecting_predicate_confines_the_walk {World : Type}
    (raptor : string → World → raptor_run * World)
    (func_ : string → list rdf_triple → World → result World)
    (fuel : nat) (uri : string) (w : World) :
  (length (parsed (trace (final (walk raptor func_ (λ _, false) fuel uri w)))) ≤ 1)%nat
  ∧ Forall (λ v, v.2 = [])
      (visits (trace (final (walk raptor func_ (λ _, false) fuel uri w)))).
Proof.
  pose proof (walk_accounted raptor func_ (λ _, false) fuel uri w) as (Hnd & _ & Hvis).
  pose proof (walk_pushed raptor func_ (λ _, false) fuel uri w) as Hpushed.
  pose proof (walk_queued raptor func_ (λ _, false) fuel uri w) as [Hq _].
  pose proof (walk_closed raptor func_ (λ _, false) fuel uri w) as [Hparsed Hpopped].
  set (st := final (walk raptor func_ (λ _, false) fuel uri w)) in *.
  assert (Forall (λ v, v.2 = []) (visits (trace st))) as Hempty.
  { rewrite Hvis. apply Forall_forall. intros v Hv.
    apply list_elem_of_omap in Hv as ([u [[[|] ts]|e]] & _ & Hd); simpl in Hd;
      simplify_eq. simpl. by induction ts. }
  split; [|done].
  assert (concat (references <$> (visits (trace st)).*2) = []) as Hnone.
  { clear -Hempty. induction Hempty as [|v vs Hv _ IH]; [done|].
    rewrite !fmap_cons. cbn [concat]. by rewrite Hv, IH. }
  assert (pushed (trace st) `prefix_of` [uri]) as Hpre.
  { subst st. destruct (walk raptor func_ (λ _, false) fuel uri w); simpl in *;
      rewrite Hnone in Hpushed; [by rewrite Hpushed | done | by rewrite Hpushed]. }
  assert (closed_list st ⊆ {[uri]}) as Hsub.
  { rewrite Hpopped. intros v Hv%elem_of_list_to_set.
    assert (v ∈ pushed (trace st)) as Hin by (rewrite Hq; set_solver).
    destruct Hpre as [k Hk]. assert (v ∈ [uri]) by (rewrite Hk; set_solver).
    set_solver. }
  rewrite <- (size_list_to_set (C := gset string)) by done.
  rewrite <- Hparsed. apply subseteq_size in Hsub. by rewrite size_singleton in Hsub.
Qed.

(** ** A predicate that throws *)

Section RemoveIfThrowingFacts.
Context {A : Type}.








End RemoveIfThrowingFacts.






(** A predicate that throws on the one triple of the document at A: the
    exception leaves the walk after the parse, before any visit. *)
Example throwing_predicate_ends_the_walk :
  ∃ st, walk_throwing (Sample.web Sample.cycle) Sample.store_uris
          (λ _, Throw (visitor_exception "no")) 5 "A" []
        = Raised (visitor_exception "no") st
        ∧ visits (trace st) = [] ∧ parsed (trace st) = ["A"].
Proof. by eexists. Qed.


